(** * zlimit: the limiter registry of [src/index.js]

    A shallow embedding of the [ZLimit] constructor: its two closure
    variables [timeouts] and [remainingCalls] and the four methods [once],
    [throttle], [limit] and [clear].

    Modelling choices.
    - [timeouts] and [remainingCalls] are JavaScript object literals [{}]:
      their own properties are a finite map from strings, and their
      prototype is [Object.prototype].  The [in] operator and property reads
      walk the prototype chain; assignment and [delete] act on own
      properties.
    - Numbers are the integer-valued doubles, as [Z].  The decrement of a
      quota stores the double nearest to [x - 1] ([round53]): exact up to
      2^53, and above it the nearest representable integer.  The sum
      [timeouts[name] + interval] is only ever compared with a reading of
      the clock; a reading is a time value, below 2^53 in magnitude, and
      against such a number the rounded sum and the exact one compare alike
      ([sum_rounding_is_invisible]), so the sum is kept exact.
    - [Date.now()] is an oracle: the k-th read of a run returns [clock k].
    - The caller's [func] is modelled at two levels.  In the methods of
      [Section Methods] it is a label: a closure that records that it ran
      and comes back, without calling the registry.  In [Module Closure] it
      is any computation on the registry and the clock, which may call the
      four methods itself and may throw; the methods are written a second
      time over it, line for line.  On labels the two agree
      ([labelled_run]).  Statements over labels speak of callers whose
      closures stay out of the registry; statements over closures name what
      they need of a closure as a hypothesis. *)

From stdpp Require Import gmap strings list fin_maps.

Open Scope string_scope.
Open Scope list_scope.
Open Scope Z_scope.

(** ** JavaScript values and objects *)

Inductive value : Type :=
| VUndefined
| VBool (b : bool)
| VNumber (n : Z)
| VNaN
| VBuiltin (key : string)  (* the object Object.prototype holds under [key] *)
| VText.                   (* a String containing the text of a built-in *)

#[global] Instance value_eq_dec : EqDecision value.
Proof. solve_decision. Defined.

(** The string-keyed properties of [Object.prototype]: the standard methods
    and the legacy accessors every engine ships. *)
Definition object_prototype_keys : list string :=
  [ "constructor"; "hasOwnProperty"; "isPrototypeOf"; "propertyIsEnumerable";
    "toLocaleString"; "toString"; "valueOf"; "__proto__";
    "__defineGetter__"; "__defineSetter__";
    "__lookupGetter__"; "__lookupSetter__" ].

Definition inherited (k : string) : bool :=
  bool_decide (k ∈ object_prototype_keys).

Abbreviation jsobj := (gmap string value).

(** [k in o] *)
Definition js_in (k : string) (o : jsobj) : bool :=
  bool_decide (is_Some (o !! k)) || inherited k.

(** [o[k]] as an expression *)
Definition js_get (o : jsobj) (k : string) : value :=
  match o !! k with
  | Some v => v
  | None => if inherited k then VBuiltin k else VUndefined
  end.

(** [o[k] = v].  An inherited data property is shadowed by a new own
    property; [__proto__] is an accessor, whose setter ignores a value that
    is not an object (the source only ever assigns Numbers). *)
Definition js_set (o : jsobj) (k : string) (v : value) : jsobj :=
  match o !! k with
  | Some _ => <[k := v]> o
  | None => if bool_decide (k = "__proto__") then o else <[k := v]> o
  end.

(** [delete o[k]]: removes an own property, nothing else. *)
Definition js_delete (o : jsobj) (k : string) : jsobj := delete k o.

(** ToNumber, [None] standing for NaN.  A built-in converts through its
    text ([function toString() { [native code] }], [[object Object]]),
    which is not a numeric literal. *)
Definition to_number (v : value) : option Z :=
  match v with
  | VNumber n => Some n
  | VBool b => Some (if b then 1 else 0)
  | VUndefined | VNaN | VBuiltin _ | VText => None
  end.

(** [a + b]: concatenation as soon as one operand converts to a String. *)
Definition js_add (a b : value) : value :=
  match a, b with
  | (VBuiltin _ | VText), _ | _, (VBuiltin _ | VText) => VText
  | _, _ =>
      match to_number a, to_number b with
      | Some x, Some y => VNumber (x + y)
      | _, _ => VNaN
      end
  end.

(** [x >= v] with a Number on the left: false when [v] converts to NaN. *)
Definition number_ge (x : Z) (v : value) : bool :=
  match to_number v with
  | Some y => bool_decide (y ≤ x)
  | None => false
  end.

(** [v > y] with a Number on the right: false when [v] converts to NaN. *)
Definition gt_number (v : value) (y : Z) : bool :=
  match to_number v with
  | Some x => bool_decide (y < x)
  | None => false
  end.

(** 2^53: up to it in magnitude every integer is a double. *)
Definition two53 : Z := 9007199254740992.

(** The double nearest to an integer: itself below 2^53 in magnitude, and
    above that the nearest multiple of the spacing of doubles there, a tie
    going to the even significand. *)
Definition round53 (z : Z) : Z :=
  if Z.abs z <? two53 then z
  else
    let u := 2 ^ (Z.log2 (Z.abs z) - 52) in
    let q := z / u in
    let r := z mod u in
    if 2 * r <? u then q * u
    else if u <? 2 * r then (q + 1) * u
    else if Z.even q then q * u else (q + 1) * u.

(** [v--] stores ToNumber(v) - 1, a double. *)
Definition js_pred (v : value) : value :=
  match to_number v with
  | Some x => VNumber (round53 (x - 1))
  | None => VNaN
  end.

(** ** The registry and its environment *)

Definition action := string.

Record world : Type := World {
  timeouts : jsobj;
  remainingCalls : jsobj;
  clock : nat → Z;        (* what the k-th Date.now() returns *)
  reads : nat;            (* Date.now() reads so far *)
  calls : list action     (* closures run so far, oldest first *)
}.

(** [new ZLimit()] *)
Definition new_ZLimit (clk : nat → Z) : world :=
  World ∅ ∅ clk 0 [].

(** A small state monad for the method bodies. *)
Definition M (A : Type) : Type := world → A * world.

Definition ret {A} (a : A) : M A := fun w => (a, w).

Definition bind {A B} (m : M A) (k : A → M B) : M B :=
  fun w => let '(a, w') := m w in k a w'.

Declare Scope js_scope.
Delimit Scope js_scope with js.
Notation "x <- c ;; k" := (bind c (fun x => k))
  (at level 100, c at next level, right associativity) : js_scope.
Notation "c ;; k" := (bind c (fun _ => k))
  (at level 100, right associativity) : js_scope.

(** [Date.now()] *)
Definition Date_now : M Z := fun w =>
  (clock w (reads w),
   World (timeouts w) (remainingCalls w) (clock w) (S (reads w)) (calls w)).

(** [func()] *)
Definition run_func (f : action) : M unit := fun w =>
  (tt, World (timeouts w) (remainingCalls w) (clock w) (reads w) (calls w ++ [f])).

(** Access to the closure variable [timeouts]. *)
Definition in_timeouts (k : string) : M bool := fun w =>
  (js_in k (timeouts w), w).
Definition get_timeouts (k : string) : M value := fun w =>
  (js_get (timeouts w) k, w).
Definition set_timeouts (k : string) (v : value) : M unit := fun w =>
  (tt, World (js_set (timeouts w) k v) (remainingCalls w)
             (clock w) (reads w) (calls w)).
Definition delete_timeouts (k : string) : M unit := fun w =>
  (tt, World (js_delete (timeouts w) k) (remainingCalls w)
             (clock w) (reads w) (calls w)).

(** Access to the closure variable [remainingCalls]. *)
Definition in_remainingCalls (k : string) : M bool := fun w =>
  (js_in k (remainingCalls w), w).
Definition get_remainingCalls (k : string) : M value := fun w =>
  (js_get (remainingCalls w) k, w).
Definition set_remainingCalls (k : string) (v : value) : M unit := fun w =>
  (tt, World (timeouts w) (js_set (remainingCalls w) k v)
             (clock w) (reads w) (calls w)).
Definition delete_remainingCalls (k : string) : M unit := fun w =>
  (tt, World (timeouts w) (js_delete (remainingCalls w) k)
             (clock w) (reads w) (calls w)).

(** ** The four methods *)

Section Methods.
Local Open Scope js_scope.

Definition throttle (name : string) (func : action) (interval : Z) : M value :=
  seen <- in_timeouts name ;;
  if negb seen then
    now <- Date_now ;;
    set_timeouts name (VNumber now) ;;
    run_func func ;;
    ret (VBool false)
  else
    now <- Date_now ;;
    last <- get_timeouts name ;;
    if number_ge now (js_add last (VNumber interval)) then
      run_func func ;;
      now' <- Date_now ;;
      set_timeouts name (VNumber now') ;;
      ret (VBool true)
    else
      ret VUndefined.

Definition limit (name : string) (func : action) (limit : Z) : M value :=
  seen <- in_remainingCalls name ;;
  (if negb seen then set_remainingCalls name (VNumber limit) else ret tt) ;;
  seen <- in_remainingCalls name ;;
  left <- (if seen then get_remainingCalls name else ret VUndefined) ;;
  if seen && gt_number left 0 then
    run_func func ;;
    old <- get_remainingCalls name ;;
    set_remainingCalls name (js_pred old) ;;
    ret (VBool true)
  else
    ret (VBool false).

Definition once (name : string) (func : action) : M value :=
  limit name func 1.

Definition clear (name : string) : M value :=
  let reset := false in
  seen <- in_timeouts name ;;
  reset <- (if seen then delete_timeouts name ;; ret true else ret reset) ;;
  seen <- in_remainingCalls name ;;
  reset <- (if seen then delete_remainingCalls name ;; ret true else ret reset) ;;
  ret (VBool reset).

End Methods.

(** ** Histories of calls *)

Inductive call : Type :=
| Once (name : string) (func : action)
| Throttle (name : string) (func : action) (interval : Z)
| Limit (name : string) (func : action) (maxCalls : Z)
| Clear (name : string).

Definition call_name (c : call) : string :=
  match c with
  | Once name _ | Throttle name _ _ | Limit name _ _ | Clear name => name
  end.

Definition exec (c : call) : M value :=
  match c with
  | Once name func => once name func
  | Throttle name func interval => throttle name func interval
  | Limit name func maxCalls => limit name func maxCalls
  | Clear name => clear name
  end.

(** The calls of a history in order, with the value each returned. *)
Fixpoint run (cs : list call) : M (list value) :=
  match cs with
  | [] => ret []
  | c :: cs' => (v <- exec c ;; vs <- run cs' ;; ret (v :: vs))%js
  end.

Definition returned {A} (m : M A) (w : world) : A := fst (m w).
Definition after {A} (m : M A) (w : world) : world := snd (m w).

(** The maxCalls argument of every [limit] of the history is non-negative. *)
Definition nonneg_maxCalls (c : call) : Prop :=
  match c with
  | Limit _ _ maxCalls => 0 ≤ maxCalls
  | _ => True
  end.

(** A clock that always shows [t], and one that shows the listed times. *)
Definition steady (t : Z) : nat → Z := fun _ => t.
Definition ticking (ts : list Z) : nat → Z := fun k => nth k ts 0.

(** A run of [limit] calls on one name. *)
Definition limits (name : string) (func : action) (ns : list Z) : list call :=
  map (Limit name func) ns.

(** The part of the world that calls on [name] read and write. *)
Definition view (name : string) (w : world) :
  option value * option value * (nat → Z) * nat * list action :=
  (timeouts w !! name, remainingCalls w !! name, clock w, reads w, calls w).

(** A registry on which no name was ever seen, in the environment of [w]. *)
Definition unseen_registry (w : world) : world :=
  World ∅ ∅ (clock w) (reads w) (calls w).

(** A call without its name, and the call it is on a given name. *)
Inductive request : Type :=
| ROnce (func : action)
| RThrottle (func : action) (interval : Z)
| RLimit (func : action) (maxCalls : Z)
| RClear.

Definition on (name : string) (r : request) : call :=
  match r with
  | ROnce func => Once name func
  | RThrottle func interval => Throttle name func interval
  | RLimit func maxCalls => Limit name func maxCalls
  | RClear => Clear name
  end.


(** ** Notions for the further properties *)

(** A clock that never runs backwards. *)
Definition monotone (clk : nat → Z) : Prop :=
  ∀ i j : nat, (i ≤ j)%nat → clk i ≤ clk j.

Definition is_throttle (c : call) : bool :=
  match c with Throttle _ _ _ => true | _ => false end.

(** The calls that draw on the quota of [name]: its [limit] and [once]. *)
Definition draws_on (name : string) (c : call) : bool :=
  match c with
  | Once n _ | Limit n _ _ => bool_decide (n = name)
  | Throttle _ _ _ | Clear _ => false
  end.

(** Every timestamp held was read from the clock during the run. *)
Definition stamps_ok (w : world) : Prop :=
  ∀ name v, timeouts w !! name = Some v →
            ∃ i : nat, (i < reads w)%nat ∧ v = VNumber (clock w i).

(** Neither mapping holds an own property under a key of
    [Object.prototype]. *)
Definition own_clean (w : world) : Prop :=
  ∀ k, inherited k = true →
       timeouts w !! k = None ∧ remainingCalls w !! k = None.

(** ** Closures that call the registry or throw

    The methods above take [func] as a label: a closure that records that
    it ran and comes back.  A JavaScript closure can do more while a method
    is running it: call the registry, read the clock, throw.  In this
    module [func] is any computation on the world that returns or throws,
    and the four methods are written over it; an exception leaves the
    method where it was raised, with what was stored so far. *)

Module Closure.

Inductive outcome (A : Type) : Type :=
| Returned (a : A)
| Thrown.

Arguments Returned {A} a.
Arguments Thrown {A}.

#[global] Instance outcome_eq_dec {A} `{EqDecision A} : EqDecision (outcome A).
Proof. solve_decision. Defined.

Definition F (A : Type) : Type := world → outcome A * world.

(** A step of the methods above, which never throws. *)
Definition lift {A} (m : M A) : F A :=
  fun w => let '(a, w') := m w in (Returned a, w').

Definition ret {A} (a : A) : F A := fun w => (Returned a, w).

Definition bind {A B} (m : F A) (k : A → F B) : F B :=
  fun w => match m w with
           | (Returned a, w') => k a w'
           | (Thrown, w') => (Thrown, w')
           end.

Declare Scope closure_scope.
Delimit Scope closure_scope with closure.
Notation "x <- c ;; k" := (bind c (fun x => k))
  (at level 100, c at next level, right associativity) : closure_scope.
Notation "c ;; k" := (bind c (fun _ => k))
  (at level 100, right associativity) : closure_scope.

(** What [func()] does. *)
Definition closure : Type := F unit.

(** The closure the methods above run: it leaves its label and returns. *)
Definition labelled (l : action) : closure := lift (run_func l).

(** [function() { throw ... }] *)
Definition throwing : closure := fun w => (Thrown, w).

(** [function() { m }], the value of [m] dropped. *)
Definition calling {A} (m : F A) : closure := bind m (fun _ => ret tt).

Section Methods.
Local Open Scope closure_scope.

Definition throttle (name : string) (func : closure) (interval : Z) : F value :=
  seen <- lift (in_timeouts name) ;;
  if negb seen then
    now <- lift Date_now ;;
    lift (set_timeouts name (VNumber now)) ;;
    func ;;
    ret (VBool false)
  else
    now <- lift Date_now ;;
    last <- lift (get_timeouts name) ;;
    if number_ge now (js_add last (VNumber interval)) then
      func ;;
      now' <- lift Date_now ;;
      lift (set_timeouts name (VNumber now')) ;;
      ret (VBool true)
    else
      ret VUndefined.

Definition limit (name : string) (func : closure) (limit : Z) : F value :=
  seen <- lift (in_remainingCalls name) ;;
  (if negb seen then lift (set_remainingCalls name (VNumber limit))
   else ret tt) ;;
  seen <- lift (in_remainingCalls name) ;;
  left <- (if seen then lift (get_remainingCalls name) else ret VUndefined) ;;
  if seen && gt_number left 0 then
    func ;;
    old <- lift (get_remainingCalls name) ;;
    lift (set_remainingCalls name (js_pred old)) ;;
    ret (VBool true)
  else
    ret (VBool false).

Definition once (name : string) (func : closure) : F value :=
  limit name func 1.

(** [clear] runs no closure: it is the method above. *)
Definition clear (name : string) : F value := lift (clear name).

End Methods.

Inductive call : Type :=
| Once (name : string) (func : closure)
| Throttle (name : string) (func : closure) (interval : Z)
| Limit (name : string) (func : closure) (maxCalls : Z)
| Clear (name : string).

Definition call_name (c : call) : string :=
  match c with
  | Once name _ | Throttle name _ _ | Limit name _ _ | Clear name => name
  end.

(** The closure a call passes; [clear] passes none. *)
Definition call_func (c : call) : closure :=
  match c with
  | Once _ func | Throttle _ func _ | Limit _ func _ => func
  | Clear _ => ret tt
  end.

Definition exec (c : call) : F value :=
  match c with
  | Once name func => once name func
  | Throttle name func interval => throttle name func interval
  | Limit name func maxCalls => limit name func maxCalls
  | Clear name => clear name
  end.

(** The calls of a history in order; a call that throws is caught by the
    caller, who goes on with the next. *)
Fixpoint run (cs : list call) (w : world) : list (outcome value) * world :=
  match cs with
  | [] => ([], w)
  | c :: cs' =>
      let '(o, w1) := exec c w in
      let '(os, w2) := run cs' w1 in
      (o :: os, w2)
  end.

Definition returned {A} (m : F A) (w : world) : outcome A := fst (m w).
Definition after {A} (m : F A) (w : world) : world := snd (m w).
Definition outcomes (cs : list call) (w : world) : list (outcome value) :=
  fst (run cs w).
Definition final (cs : list call) (w : world) : world := snd (run cs w).

End Closure.

(** The call of the methods above as a call with the closure that leaves
    its label. *)
Definition embed (c : call) : Closure.call :=
  match c with
  | Once name l => Closure.Once name (Closure.labelled l)
  | Throttle name l interval => Closure.Throttle name (Closure.labelled l) interval
  | Limit name l maxCalls => Closure.Limit name (Closure.labelled l) maxCalls
  | Clear name => Closure.Clear name
  end.

(** What a closure may leave alone.  It leaves the quota mapping as it
    found it; it leaves the two entries of [m] as it found them; it returns
    and leaves the registry and the clock as it found them. *)
Definition quota_quiet (f : Closure.closure) : Prop :=
  ∀ w, remainingCalls (snd (f w)) = remainingCalls w.



Definition keeps (m : string) (f : Closure.closure) : Prop :=
  ∀ w, timeouts (snd (f w)) !! m = timeouts w !! m ∧
       remainingCalls (snd (f w)) !! m = remainingCalls w !! m.

Definition inert (f : Closure.closure) : Prop :=
  ∀ w, ∃ w', f w = (Closure.Returned tt, w') ∧
             timeouts w' = timeouts w ∧
             remainingCalls w' = remainingCalls w ∧
             clock w' = clock w ∧ reads w' = reads w.



Definition is_clear_of (name : string) (c : Closure.call) : bool :=
  match c with
  | Closure.Clear n => bool_decide (n = name)
  | _ => false
  end.

(** The calls that draw on the quota of [name], and how many of the calls
    [cs], whose outcomes were [os], drew on it and returned true. *)
Definition draws (name : string) (c : Closure.call) : bool :=
  match c with
  | Closure.Once n _ | Closure.Limit n _ _ => bool_decide (n = name)
  | Closure.Throttle _ _ _ | Closure.Clear _ => false
  end.

Fixpoint grants (name : string) (cs : list Closure.call)
    (os : list (Closure.outcome value)) : Z :=
  match cs, os with
  | c :: cs', o :: os' =>
      (if draws name c && bool_decide (o = Closure.Returned (VBool true))
       then 1 else 0)
      + grants name cs' os'
  | _, _ => 0
  end.

(** The [throttle] calls on [name], and how many of the calls [cs], whose
    outcomes were [os], were one that returned true: its allowed repeats. *)
Definition throttles (name : string) (c : Closure.call) : bool :=
  match c with
  | Closure.Throttle n _ _ => bool_decide (n = name)
  | _ => false
  end.

Fixpoint allowed (name : string) (cs : list Closure.call)
    (os : list (Closure.outcome value)) : Z :=
  match cs, os with
  | c :: cs', o :: os' =>
      (if throttles name c && bool_decide (o = Closure.Returned (VBool true))
       then 1 else 0)
      + allowed name cs' os'
  | _, _ => 0
  end.

(** A [throttle] of [name] asks for an interval of at least [d]. *)
Definition asks_at_least (d : Z) (name : string) (c : Closure.call) : Prop :=
  match c with
  | Closure.Throttle n _ interval => n = name → d ≤ interval
  | _ => True
  end.

(** A closure can read the clock, not set it; it leaves the timestamp of
    [name] as it found it; it removes no entry of [name]. *)
Definition respects_clock (f : Closure.closure) : Prop :=
  ∀ w, clock (snd (f w)) = clock w ∧ (reads w ≤ reads (snd (f w)))%nat.

Definition keeps_stamp (name : string) (f : Closure.closure) : Prop :=
  ∀ w, timeouts (snd (f w)) !! name = timeouts w !! name.

Definition keeps_present (name : string) (f : Closure.closure) : Prop :=
  ∀ w, (is_Some (timeouts w !! name) →
        is_Some (timeouts (snd (f w)) !! name)) ∧
       (is_Some (remainingCalls w !! name) →
        is_Some (remainingCalls (snd (f w)) !! name)).

(** Two worlds with the same registry and the same clock; they may differ
    in the labels left. *)
Definition same_registry (w1 w2 : world) : Prop :=
  timeouts w1 = timeouts w2 ∧ remainingCalls w1 = remainingCalls w2 ∧
  clock w1 = clock w2 ∧ reads w1 = reads w2.

(** A call with its closure put aside. *)
Definition erase (c : Closure.call) : call :=
  match c with
  | Closure.Once name _ => Once name ""
  | Closure.Throttle name _ interval => Throttle name "" interval
  | Closure.Limit name _ maxCalls => Limit name "" maxCalls
  | Closure.Clear name => Clear name
  end.

(** What a [limit] or [once] would seed. *)
Definition seeds (c : Closure.call) : Z :=
  match c with
  | Closure.Once _ _ => 1
  | Closure.Limit _ _ maxCalls => maxCalls
  | Closure.Throttle _ _ _ | Closure.Clear _ => 0
  end.

(** The outcomes a history had for its [limit] and [once] calls, and the
    history without its [throttle] calls. *)
Fixpoint draw_outcomes (cs : list Closure.call)
    (os : list (Closure.outcome value)) : list (Closure.outcome value) :=
  match cs, os with
  | c :: cs', o :: os' =>
      match c with
      | Closure.Once _ _ | Closure.Limit _ _ _ => o :: draw_outcomes cs' os'
      | _ => draw_outcomes cs' os'
      end
  | _, _ => []
  end.

Definition throttling (c : Closure.call) : bool :=
  match c with Closure.Throttle _ _ _ => true | _ => false end.

Definition drop_throttles (cs : list Closure.call) : list Closure.call :=
  filter (λ c, throttling c = false) cs.

(** A closure that returns and leaves the quota mapping as it found it. *)
Definition settles (f : Closure.closure) : Prop :=
  ∀ w, fst (f w) = Closure.Returned tt ∧
       remainingCalls (snd (f w)) = remainingCalls w.

(** ** Unfolding the methods *)

Lemma limit_unfold name func n w :
  limit name func n w =
  let r := if js_in name (remainingCalls w) then remainingCalls w
           else js_set (remainingCalls w) name (VNumber n) in
  if js_in name r && gt_number (js_get r name) 0 then
    (VBool true,
     World (timeouts w) (js_set r name (js_pred (js_get r name)))
           (clock w) (reads w) (calls w ++ [func]))
  else
    (VBool false, World (timeouts w) r (clock w) (reads w) (calls w)).
Proof.
  unfold limit, bind, in_remainingCalls, get_remainingCalls,
    set_remainingCalls, run_func, ret; simpl.
  destruct (js_in name (remainingCalls w)) eqn:Hin; simpl.
  - rewrite Hin; simpl. destruct w; simpl.
    destruct (gt_number _ 0); reflexivity.
  - destruct (js_in name (js_set _ _ _)); simpl;
      [destruct (gt_number _ 0)|]; reflexivity.
Qed.

Lemma throttle_unfold name func interval w :
  throttle name func interval w =
  let now := clock w (reads w) in
  if negb (js_in name (timeouts w)) then
    (VBool false,
     World (js_set (timeouts w) name (VNumber now)) (remainingCalls w)
           (clock w) (S (reads w)) (calls w ++ [func]))
  else if number_ge now (js_add (js_get (timeouts w) name) (VNumber interval)) then
    (VBool true,
     World (js_set (timeouts w) name (VNumber (clock w (S (reads w)))))
           (remainingCalls w) (clock w) (S (S (reads w))) (calls w ++ [func]))
  else
    (VUndefined,
     World (timeouts w) (remainingCalls w) (clock w) (S (reads w)) (calls w)).
Proof.
  unfold throttle, bind, in_timeouts, get_timeouts, set_timeouts, Date_now,
    run_func, ret; simpl.
  destruct (js_in name (timeouts w)); simpl; [|reflexivity].
  destruct (number_ge _ _); reflexivity.
Qed.

Lemma clear_unfold name w :
  clear name w =
  (VBool (js_in name (timeouts w) || js_in name (remainingCalls w)),
   World (js_delete (timeouts w) name) (js_delete (remainingCalls w) name)
         (clock w) (reads w) (calls w)).
Proof.
  unfold clear, bind, in_timeouts, in_remainingCalls, delete_timeouts,
    delete_remainingCalls, ret, js_in, js_delete; simpl.
  destruct (timeouts w !! name) as [v|] eqn:Ht;
    destruct (remainingCalls w !! name) as [v'|] eqn:Hr;
    destruct (inherited name) eqn:Hi; simpl;
    rewrite ?Ht, ?Hr; simpl;
    rewrite ?(delete_id (timeouts w) name), ?(delete_id (remainingCalls w) name)
      by assumption;
    destruct w; reflexivity.
Qed.

Lemma run_cons c cs w :
  run (c :: cs) w =
  (returned (exec c) w :: returned (run cs) (after (exec c) w),
   after (run cs) (after (exec c) w)).
Proof.
  unfold returned, after; simpl; unfold bind, ret.
  destruct (exec c w) as [v w1]; simpl.
  destruct (run cs w1) as [vs w2]; reflexivity.
Qed.

(** ** Property lookup on an object whose prototype is [Object.prototype] *)

Lemma inherited_proto k : inherited k = false → k ≠ "__proto__".
Proof. intros H ->. vm_compute in H. discriminate. Qed.

Lemma js_in_own (o : jsobj) k v : o !! k = Some v → js_in k o = true.
Proof. intros H. unfold js_in. rewrite H. reflexivity. Qed.

Lemma js_in_absent (o : jsobj) k : o !! k = None → js_in k o = inherited k.
Proof.
  intros H. unfold js_in. rewrite H.
  rewrite bool_decide_eq_false_2; [reflexivity|].
  intros [v Hv]; discriminate.
Qed.

Lemma js_in_inherited (o : jsobj) k : inherited k = true → js_in k o = true.
Proof. intros H. unfold js_in. rewrite H. apply orb_true_r. Qed.

Lemma js_get_own (o : jsobj) k v : o !! k = Some v → js_get o k = v.
Proof. intros H. unfold js_get. rewrite H. reflexivity. Qed.

Lemma js_get_inherited (o : jsobj) k :
  o !! k = None → inherited k = true → js_get o k = VBuiltin k.
Proof. intros H Hi. unfold js_get. rewrite H, Hi. reflexivity. Qed.

Lemma js_set_own (o : jsobj) k v v' :
  o !! k = Some v → js_set o k v' = <[k := v']> o.
Proof. intros H. unfold js_set. rewrite H. reflexivity. Qed.

Lemma js_set_new (o : jsobj) k v' :
  inherited k = false → js_set o k v' = <[k := v']> o.
Proof.
  intros H. unfold js_set. destruct (o !! k); [reflexivity|].
  rewrite bool_decide_eq_false_2; [reflexivity|].
  apply inherited_proto, H.
Qed.

Lemma js_set_other (o : jsobj) k m v :
  k ≠ m → js_set o k v !! m = o !! m.
Proof.
  intros H. unfold js_set.
  destruct (o !! k); [|destruct (bool_decide _)];
    rewrite ?lookup_insert_ne by assumption; reflexivity.
Qed.

Lemma js_delete_other (o : jsobj) k m : k ≠ m → js_delete o k !! m = o !! m.
Proof. intros H. unfold js_delete. apply lookup_delete_ne, H. Qed.

Lemma js_delete_same (o : jsobj) k : js_delete o k !! k = None.
Proof. apply lookup_delete_eq. Qed.

(** The conversions a built-in goes through never yield a number. *)
Lemma gt_number_builtin k y : gt_number (VBuiltin k) y = false.
Proof. reflexivity. Qed.

Lemma number_ge_builtin x k interval :
  number_ge x (js_add (VBuiltin k) (VNumber interval)) = false.
Proof. reflexivity. Qed.

(** ** The decrement of a double *)

Lemma round53_safe z : - two53 < z < two53 → round53 z = z.
Proof.
  intros H. unfold round53.
  destruct (Z.abs z <? two53) eqn:E; [reflexivity|].
  apply Z.ltb_ge in E. lia.
Qed.

Lemma round53_pred k : 0 < k → k ≤ two53 → round53 (k - 1) = k - 1.
Proof. intros H1 H2. apply round53_safe. unfold two53 in *. lia. Qed.


(** Beyond 2^53 in magnitude a number rounds to a double that is beyond it
    too, on the same side. *)
Lemma round53_far z :
  two53 ≤ Z.abs z →
  (0 ≤ z → two53 ≤ round53 z) ∧ (z ≤ 0 → round53 z ≤ - two53).
Proof.
  intros E. unfold round53.
  destruct (Z.abs z <? two53) eqn:E'; [apply Z.ltb_lt in E'; lia|]. clear E'.
  assert (Z.log2 two53 ≤ Z.log2 (Z.abs z)) as Hlog
    by (apply Z.log2_le_mono; exact E).
  assert (Z.log2 two53 = 53) as Hl by reflexivity. rewrite Hl in Hlog.
  assert (0 < Z.abs z) as Hpos by (unfold two53 in E; lia).
  destruct (Z.log2_spec _ Hpos) as [Hlo _].
  set (e := Z.log2 (Z.abs z) - 52) in *.
  assert (Z.log2 (Z.abs z) = 52 + e) as He by lia.
  rewrite He, Z.pow_add_r in Hlo by lia.
  set (u := 2 ^ e) in *.
  assert (2 ≤ u) as Hu.
  { change 2 with (2 ^ 1) at 1. apply Z.pow_le_mono_r; lia. }
  assert (2 ^ 52 * 2 = two53) as H53 by reflexivity.
  pose proof (Z.div_mod z u ltac:(lia)) as Hdm.
  pose proof (Z.mod_pos_bound z u ltac:(lia)) as Hr.
  set (q := z / u) in *. set (r := z mod u) in *.
  set (p := 2 ^ 52) in *.
  split; intros Hz.
  - assert (p ≤ q) by nia.
    repeat match goal with |- context [if ?b then _ else _] => destruct b end;
      nia.
  - rewrite Z.abs_neq in Hlo by lia.
    destruct (2 * r <? u) eqn:E1.
    + nia.
    + apply Z.ltb_ge in E1.
      assert (q + 1 ≤ - p) by nia.
      repeat match goal with |- context [if ?b then _ else _] => destruct b end;
        nia.
Qed.

(** The test of [throttle], [Date.now() >= timeouts[name] + interval], with
    a reading of the clock below 2^53 in magnitude: rounding the sum to a
    double does not change the answer. *)
Lemma sum_rounding_is_invisible t interval now :
  Z.abs now < two53 →
  number_ge now (VNumber (round53 (t + interval))) =
  number_ge now (js_add (VNumber t) (VNumber interval)).
Proof.
  intros Hnow. simpl. apply bool_decide_ext.
  destruct (Z_lt_le_dec (Z.abs (t + interval)) two53) as [Hs|Hf].
  - unfold round53. apply Z.ltb_lt in Hs. rewrite Hs. reflexivity.
  - destruct (round53_far _ Hf) as [Hp Hn]. lia.
Qed.

(** ** [limit], branch by branch *)

Lemma limit_first name func n w :
  inherited name = false →
  remainingCalls w !! name = None →
  limit name func n w =
  if bool_decide (0 < n) then
    (VBool true,
     World (timeouts w) (<[name := VNumber (round53 (n - 1))]> (remainingCalls w))
           (clock w) (reads w) (calls w ++ [func]))
  else
    (VBool false,
     World (timeouts w) (<[name := VNumber n]> (remainingCalls w))
           (clock w) (reads w) (calls w)).
Proof.
  intros Hi Hr. rewrite limit_unfold; simpl.
  rewrite (js_in_absent _ _ Hr), Hi, (js_set_new _ _ _ Hi).
  rewrite (js_in_own _ name (VNumber n)) by apply lookup_insert_eq.
  rewrite (js_get_own _ name (VNumber n)) by apply lookup_insert_eq.
  unfold gt_number, js_pred; simpl.
  destruct (bool_decide (0 < n)); [|reflexivity].
  rewrite (js_set_new _ _ _ Hi), insert_insert_eq. reflexivity.
Qed.

Lemma limit_again name func n k w :
  remainingCalls w !! name = Some (VNumber k) →
  limit name func n w =
  if bool_decide (0 < k) then
    (VBool true,
     World (timeouts w) (<[name := VNumber (round53 (k - 1))]> (remainingCalls w))
           (clock w) (reads w) (calls w ++ [func]))
  else
    (VBool false, w).
Proof.
  intros Hr. rewrite limit_unfold; simpl.
  rewrite (js_in_own _ _ _ Hr); simpl.
  rewrite (js_in_own _ _ _ Hr), (js_get_own _ _ _ Hr).
  unfold gt_number, js_pred; simpl.
  destruct (bool_decide (0 < k)).
  - rewrite (js_set_own _ _ _ _ Hr). reflexivity.
  - destruct w; reflexivity.
Qed.

Lemma limit_inherited name func n w :
  inherited name = true →
  remainingCalls w !! name = None →
  limit name func n w = (VBool false, w).
Proof.
  intros Hi Hr. rewrite limit_unfold; simpl.
  rewrite (js_in_inherited _ _ Hi); simpl.
  rewrite (js_in_inherited _ _ Hi), (js_get_inherited _ _ Hr Hi); simpl.
  destruct w; reflexivity.
Qed.

(** ** [throttle], branch by branch *)

Lemma throttle_first name func interval w :
  inherited name = false →
  timeouts w !! name = None →
  throttle name func interval w =
  (VBool false,
   World (<[name := VNumber (clock w (reads w))]> (timeouts w))
         (remainingCalls w) (clock w) (S (reads w)) (calls w ++ [func])).
Proof.
  intros Hi Ht. rewrite throttle_unfold; simpl.
  rewrite (js_in_absent _ _ Ht), Hi; simpl.
  rewrite (js_set_new _ _ _ Hi). reflexivity.
Qed.

Lemma throttle_repeat name func interval t0 w :
  timeouts w !! name = Some (VNumber t0) →
  throttle name func interval w =
  if bool_decide (interval ≤ clock w (reads w) - t0) then
    (VBool true,
     World (<[name := VNumber (clock w (S (reads w)))]> (timeouts w))
           (remainingCalls w) (clock w) (S (S (reads w))) (calls w ++ [func]))
  else
    (VUndefined,
     World (timeouts w) (remainingCalls w) (clock w) (S (reads w)) (calls w)).
Proof.
  intros Ht. rewrite throttle_unfold; simpl.
  rewrite (js_in_own _ _ _ Ht), (js_get_own _ _ _ Ht); simpl.
  unfold number_ge; simpl.
  rewrite (bool_decide_ext (t0 + interval ≤ clock w (reads w))
             (interval ≤ clock w (reads w) - t0)) by lia.
  destruct (bool_decide _); [|reflexivity].
  rewrite (js_set_own _ _ _ _ Ht). reflexivity.
Qed.

Lemma throttle_inherited name func interval w :
  inherited name = true →
  timeouts w !! name = None →
  throttle name func interval w =
  (VUndefined,
   World (timeouts w) (remainingCalls w) (clock w) (S (reads w)) (calls w)).
Proof.
  intros Hi Ht. rewrite throttle_unfold; simpl.
  rewrite (js_in_inherited _ _ Hi), (js_get_inherited _ _ Ht Hi); simpl.
  reflexivity.
Qed.

(** ** Calls on one name leave the other names alone *)

Lemma exec_other_timeouts c w m :
  call_name c ≠ m →
  timeouts (after (exec c) w) !! m = timeouts w !! m.
Proof.
  intros Hne. unfold after.
  destruct c as [name f|name f i|name f n|name]; simpl in *;
    unfold once;
    rewrite ?limit_unfold, ?throttle_unfold, ?clear_unfold; simpl.
  - destruct (_ && _); reflexivity.
  - destruct (negb _); [|destruct (number_ge _ _)]; simpl;
      rewrite ?js_set_other by assumption; reflexivity.
  - destruct (_ && _); reflexivity.
  - apply js_delete_other, Hne.
Qed.

Lemma exec_other_remainingCalls c w m :
  call_name c ≠ m →
  remainingCalls (after (exec c) w) !! m = remainingCalls w !! m.
Proof.
  intros Hne. unfold after.
  destruct c as [name f|name f i|name f n|name]; simpl in *;
    unfold once;
    rewrite ?limit_unfold, ?throttle_unfold, ?clear_unfold; simpl.
  - destruct (js_in name (remainingCalls w)); destruct (_ && _); simpl;
      rewrite ?js_set_other by assumption; reflexivity.
  - destruct (negb _); [|destruct (number_ge _ _)]; reflexivity.
  - destruct (js_in name (remainingCalls w)); destruct (_ && _); simpl;
      rewrite ?js_set_other by assumption; reflexivity.
  - apply js_delete_other, Hne.
Qed.

Lemma run_other cs w m :
  Forall (λ c, call_name c ≠ m) cs →
  timeouts (after (run cs) w) !! m = timeouts w !! m ∧
  remainingCalls (after (run cs) w) !! m = remainingCalls w !! m.
Proof.
  intros H; revert w; induction H as [|c cs Hc _ IH]; intros w.
  - split; reflexivity.
  - assert (after (run (c :: cs)) w = after (run cs) (after (exec c) w)) as ->
      by (unfold after at 1; rewrite run_cons; reflexivity).
    destruct (IH (after (exec c) w)) as [-> ->].
    split; [apply exec_other_timeouts|apply exec_other_remainingCalls]; exact Hc.
Qed.

(** ** The quota of a name that [Object.prototype] does not define *)

Lemma limits_running name func ns : ∀ k w,
  0 ≤ k → k ≤ two53 →
  remainingCalls w !! name = Some (VNumber k) →
  returned (run (limits name func ns)) w =
    map (λ i : nat, VBool (bool_decide (Z.of_nat i < k))) (seq 0 (length ns)) ∧
  calls (after (run (limits name func ns)) w) =
    calls w ++ replicate (Nat.min (length ns) (Z.to_nat k)) func.
Proof.
  induction ns as [|n ns IH]; intros k w Hk Hsafe Hr.
  - split; [reflexivity|]. unfold after; simpl. rewrite app_nil_r. reflexivity.
  - unfold returned, after, limits in *; simpl map.
    rewrite run_cons; unfold returned, after; simpl exec.
    rewrite (limit_again _ _ _ _ _ Hr).
    destruct (bool_decide (0 < k)) eqn:Hpos.
    + apply bool_decide_eq_true in Hpos.
      rewrite (round53_pred k Hpos Hsafe).
      destruct (IH (k - 1) (World (timeouts w)
                  (<[name := VNumber (k - 1)]> (remainingCalls w))
                  (clock w) (reads w) (calls w ++ [func]))) as [IHv IHc];
        [lia|lia|apply lookup_insert_eq|].
      simpl in *. rewrite IHv, IHc. split.
      * f_equal; [rewrite bool_decide_eq_true_2 by lia; reflexivity|].
        rewrite <- seq_shift, map_map. apply map_ext; intros i.
        f_equal. apply bool_decide_ext. lia.
      * rewrite <- app_assoc. f_equal.
        replace (Z.to_nat k) with (S (Z.to_nat (k - 1))) by lia.
        reflexivity.
    + apply bool_decide_eq_false in Hpos.
      assert (k = 0) as -> by lia.
      destruct (IH 0 w) as [IHv IHc]; [lia|assumption|assumption|].
      simpl in *. rewrite IHv, IHc. split.
      * f_equal. rewrite <- seq_shift, map_map. apply map_ext; intros i.
        f_equal. apply bool_decide_ext. lia.
      * rewrite Nat.min_0_r. reflexivity.
Qed.

(** On a name that [Object.prototype] does not define and that holds no
    quota yet, a run of [limit] calls executes [func] on the first [n1]
    calls and on no later one, whatever the later calls pass; [n1] is at
    most 2^53, where the decrement of a double is exact. *)
Theorem limit_quota_own_name name func n1 ns w :
  inherited name = false →
  remainingCalls w !! name = None →
  0 ≤ n1 → n1 ≤ two53 →
  returned (run (limits name func (n1 :: ns))) w =
    map (λ i : nat, VBool (bool_decide (Z.of_nat i < n1)))
        (seq 0 (S (length ns))) ∧
  calls (after (run (limits name func (n1 :: ns))) w) =
    calls w ++ replicate (Nat.min (S (length ns)) (Z.to_nat n1)) func.
Proof.
  intros Hi Hr Hn Hsafe.
  unfold returned, after, limits; simpl map.
  rewrite run_cons; unfold returned, after; simpl exec.
  rewrite (limit_first _ _ _ _ Hi Hr).
  destruct (bool_decide (0 < n1)) eqn:Hpos.
  - apply bool_decide_eq_true in Hpos.
    rewrite (round53_pred n1 Hpos Hsafe).
    destruct (limits_running name func ns (n1 - 1)
                (World (timeouts w)
                   (<[name := VNumber (n1 - 1)]> (remainingCalls w))
                   (clock w) (reads w) (calls w ++ [func]))) as [Hv Hc];
      [lia|lia|apply lookup_insert_eq|].
    unfold returned, after, limits in Hv, Hc. simpl in *.
    rewrite Hv, Hc. split.
    + f_equal; [rewrite bool_decide_eq_true_2 by lia; reflexivity|].
      rewrite <- seq_shift, map_map. apply map_ext; intros i.
      f_equal. apply bool_decide_ext. lia.
    + rewrite <- app_assoc. f_equal.
      replace (Z.to_nat n1) with (S (Z.to_nat (n1 - 1))) by lia.
      reflexivity.
  - apply bool_decide_eq_false in Hpos.
    assert (n1 = 0) as -> by lia.
    destruct (limits_running name func ns 0
                (World (timeouts w)
                   (<[name := VNumber 0]> (remainingCalls w))
                   (clock w) (reads w) (calls w))) as [Hv Hc];
      [lia|unfold two53; lia|apply lookup_insert_eq|].
    unfold returned, after, limits in Hv, Hc. simpl in *.
    rewrite Hv, Hc. split.
    + f_equal. rewrite <- seq_shift, map_map. apply map_ext; intros i.
      f_equal. apply bool_decide_ext. lia.
    + rewrite Nat.min_0_r. reflexivity.
Qed.

(** [limit('x', f, 3)] five times: [true, true, true, false, false]. *)
Example limit_x_five_times clk :
  run (limits "x" "f" [3; 3; 3; 3; 3]) (new_ZLimit clk) =
  ([VBool true; VBool true; VBool true; VBool false; VBool false],
   World ∅ {["x" := VNumber 0]} clk 0 ["f"; "f"; "f"]).
Proof. vm_compute. reflexivity. Qed.

(** ** [once] *)

Lemma run_onces name func k w :
  run (replicate k (Once name func)) w =
  run (limits name func (replicate k 1)) w.
Proof.
  revert w; induction k as [|k IH]; intros w; [reflexivity|].
  unfold limits in *; simpl replicate; simpl map.
  rewrite !run_cons. unfold returned, after. rewrite IH. reflexivity.
Qed.

(** On a name that [Object.prototype] does not define, [once] runs [func]
    on the first call and on no later one. *)
Theorem once_own_name name func k w :
  inherited name = false →
  remainingCalls w !! name = None →
  returned (run (replicate (S k) (Once name func))) w =
    VBool true :: replicate k (VBool false) ∧
  calls (after (run (replicate (S k) (Once name func))) w) = calls w ++ [func].
Proof.
  intros Hi Hr. unfold returned, after. rewrite run_onces.
  destruct (limit_quota_own_name name func 1 (replicate k 1) w Hi Hr)
    as [Hv Hc]; [lia|unfold two53; lia|].
  unfold returned, after in Hv, Hc. simpl replicate in *.
  rewrite Hv, Hc, length_replicate. split.
  - simpl. f_equal. rewrite <- seq_shift, map_map.
    clear. generalize 0%nat. induction k as [|k IH]; intros j; [reflexivity|].
    simpl. f_equal; [|apply IH].
    rewrite bool_decide_eq_false_2 by lia. reflexivity.
  - rewrite Nat.min_0_r. reflexivity.
Qed.

(** [once('y', f)] three times: [true, false, false]. *)
Example once_y_three_times clk :
  returned (run (replicate 3 (Once "y" "f"))) (new_ZLimit clk) =
  [VBool true; VBool false; VBool false].
Proof. vm_compute. reflexivity. Qed.

(** ** [throttle] on a name that [Object.prototype] does not define *)

(** [throttle('z', f, 5)] at t = 0, 3, 6, 9, 12, the closure taking no
    measurable time: first call, suppressed, allowed, suppressed, allowed. *)
Example throttle_z_scenario :
  run (replicate 5 (Throttle "z" "f" 5))
      (new_ZLimit (ticking [0; 3; 6; 6; 9; 12; 12])) =
  ([VBool false; VUndefined; VBool true; VUndefined; VBool true],
   World {["z" := VNumber 12]} ∅ (ticking [0; 3; 6; 6; 9; 12; 12]) 7
         ["f"; "f"; "f"]).
Proof. vm_compute. reflexivity. Qed.

(** The three outcomes of [throttle] for a name that [Object.prototype]
    does not define: first call, allowed repeat (elapsed time at least the
    interval, equality included), suppressed repeat. *)
Theorem throttle_own_name name func interval w :
  inherited name = false →
  (timeouts w !! name = None →
   throttle name func interval w =
   (VBool false,
    World (<[name := VNumber (clock w (reads w))]> (timeouts w))
          (remainingCalls w) (clock w) (S (reads w)) (calls w ++ [func]))) ∧
  (∀ t0, timeouts w !! name = Some (VNumber t0) →
   (interval ≤ clock w (reads w) - t0 →
    throttle name func interval w =
    (VBool true,
     World (<[name := VNumber (clock w (S (reads w)))]> (timeouts w))
           (remainingCalls w) (clock w) (S (S (reads w))) (calls w ++ [func]))) ∧
   (clock w (reads w) - t0 < interval →
    throttle name func interval w =
    (VUndefined,
     World (timeouts w) (remainingCalls w) (clock w) (S (reads w)) (calls w)))).
Proof.
  intros Hi. split; [apply throttle_first, Hi|].
  intros t0 Ht. rewrite (throttle_repeat _ _ _ _ _ Ht). split; intros H.
  - rewrite bool_decide_eq_true_2 by exact H. reflexivity.
  - rewrite bool_decide_eq_false_2 by lia. reflexivity.
Qed.

(** ** [clear] *)

Lemma clear_removes name w :
  timeouts (after (clear name) w) !! name = None ∧
  remainingCalls (after (clear name) w) !! name = None.
Proof.
  unfold after. rewrite clear_unfold; simpl.
  split; apply js_delete_same.
Qed.

(** For a name that [Object.prototype] does not define, [clear] returns
    true exactly when the name had a timestamp or a quota. *)
Theorem clear_own_name name w :
  inherited name = false →
  returned (clear name) w =
  VBool (bool_decide (is_Some (timeouts w !! name)
                      ∨ is_Some (remainingCalls w !! name))).
Proof.
  intros Hi. unfold returned. rewrite clear_unfold; simpl.
  unfold js_in. rewrite Hi, !orb_false_r, bool_decide_or. reflexivity.
Qed.

(** X15.  A name that [Object.prototype] does not define and that no call
    of the history mentions: [clear] returns false. *)
Theorem clear_unused_own_name name cs clk :
  inherited name = false →
  Forall (λ c, call_name c ≠ name) cs →
  returned (clear name) (after (run cs) (new_ZLimit clk)) = VBool false.
Proof.
  intros Hi Hcs. rewrite (clear_own_name _ _ Hi).
  destruct (run_other cs (new_ZLimit clk) name Hcs) as [-> ->].
  reflexivity.
Qed.

(** ** What a call on a name can see of the registry *)

Lemma js_in_local (o1 o2 : jsobj) k :
  o1 !! k = o2 !! k → js_in k o1 = js_in k o2.
Proof. intros H. unfold js_in. rewrite H. reflexivity. Qed.

Lemma js_get_local (o1 o2 : jsobj) k :
  o1 !! k = o2 !! k → js_get o1 k = js_get o2 k.
Proof. intros H. unfold js_get. rewrite H. reflexivity. Qed.

Lemma js_set_local (o1 o2 : jsobj) k v :
  o1 !! k = o2 !! k → js_set o1 k v !! k = js_set o2 k v !! k.
Proof.
  intros H. unfold js_set. rewrite H.
  destruct (o2 !! k) eqn:E; [|destruct (bool_decide _)];
    rewrite ?lookup_insert_eq; congruence.
Qed.

Lemma limit_local name func n w1 w2 :
  view name w1 = view name w2 →
  returned (limit name func n) w1 = returned (limit name func n) w2 ∧
  view name (after (limit name func n) w1) =
  view name (after (limit name func n) w2).
Proof.
  unfold view, returned, after. intros [= Ht Hr Hclk Hrd Hcl].
  rewrite !limit_unfold; simpl.
  rewrite (js_in_local _ _ _ Hr).
  set (r1 := if js_in name (remainingCalls w2) then remainingCalls w1 else _).
  set (r2 := if js_in name (remainingCalls w2) then remainingCalls w2 else _).
  assert (r1 !! name = r2 !! name) as Hr'.
  { unfold r1, r2. destruct (js_in name (remainingCalls w2));
      [assumption|apply js_set_local, Hr]. }
  rewrite (js_in_local _ _ _ Hr'), (js_get_local _ _ _ Hr').
  destruct (_ && _); simpl;
    rewrite ?(js_set_local r1 r2) by assumption; split; congruence.
Qed.

Lemma throttle_local name func interval w1 w2 :
  view name w1 = view name w2 →
  returned (throttle name func interval) w1 =
  returned (throttle name func interval) w2 ∧
  view name (after (throttle name func interval) w1) =
  view name (after (throttle name func interval) w2).
Proof.
  unfold view, returned, after. intros [= Ht Hr Hclk Hrd Hcl].
  rewrite !throttle_unfold; simpl.
  rewrite (js_in_local _ _ _ Ht), (js_get_local _ _ _ Ht), Hclk, Hrd.
  destruct (negb _); [|destruct (number_ge _ _)]; simpl;
    rewrite ?(js_set_local (timeouts w1) (timeouts w2)) by assumption;
    split; congruence.
Qed.

Lemma clear_local name w1 w2 :
  view name w1 = view name w2 →
  returned (clear name) w1 = returned (clear name) w2 ∧
  view name (after (clear name) w1) = view name (after (clear name) w2).
Proof.
  unfold view, returned, after. intros [= Ht Hr Hclk Hrd Hcl].
  rewrite !clear_unfold; simpl.
  rewrite (js_in_local _ _ _ Ht), (js_in_local _ _ _ Hr), !js_delete_same.
  split; congruence.
Qed.

Lemma exec_local name r w1 w2 :
  view name w1 = view name w2 →
  returned (exec (on name r)) w1 = returned (exec (on name r)) w2 ∧
  view name (after (exec (on name r)) w1) =
  view name (after (exec (on name r)) w2).
Proof.
  destruct r; simpl; unfold once;
    auto using limit_local, throttle_local, clear_local.
Qed.

Lemma run_local name rs : ∀ w1 w2,
  view name w1 = view name w2 →
  returned (run (map (on name) rs)) w1 = returned (run (map (on name) rs)) w2 ∧
  view name (after (run (map (on name) rs)) w1) =
  view name (after (run (map (on name) rs)) w2).
Proof.
  induction rs as [|r rs IH]; intros w1 w2 Hv.
  - split; [reflexivity|exact Hv].
  - simpl map. unfold returned, after. rewrite !run_cons; simpl.
    destruct (exec_local name r w1 w2 Hv) as [Hret Hview].
    destruct (IH _ _ Hview) as [Hrets Hviews].
    split; [f_equal; assumption|exact Hviews].
Qed.

(** ** What each method leaves alone *)

Lemma throttle_remainingCalls name func interval w :
  remainingCalls (after (throttle name func interval) w) = remainingCalls w.
Proof.
  unfold after. rewrite throttle_unfold; simpl.
  destruct (negb _); [|destruct (number_ge _ _)]; reflexivity.
Qed.

Lemma limit_timeouts name func n w :
  timeouts (after (limit name func n) w) = timeouts w.
Proof.
  unfold after. rewrite limit_unfold; simpl.
  destruct (_ && _); reflexivity.
Qed.

Lemma run_after_cons c cs w :
  after (run (c :: cs)) w = after (run cs) (after (exec c) w).
Proof. unfold after at 1. rewrite run_cons. reflexivity. Qed.

(** * The claims *)

(** C1.  The claim: for every name, a run of [limit] calls on it executes
    the action on exactly the first n_1 calls.  The code does not, on a
    name that [Object.prototype] defines: on a new registry every
    [limit('toString', func, n)] returns false, runs nothing and records
    nothing, whatever the quotas passed. *)
Theorem limit_toString_never_executes func ns clk :
  run (limits "toString" func ns) (new_ZLimit clk) =
  (map (λ _, VBool false) ns, new_ZLimit clk).
Proof.
  induction ns as [|n ns IH]; [reflexivity|].
  unfold limits in *; simpl map. rewrite run_cons.
  unfold returned, after; simpl exec.
  rewrite limit_inherited by reflexivity. simpl.
  rewrite IH. reflexivity.
Qed.

(** C2.  The claim: the first [throttle] call for a name records the time,
    executes the action and returns false.  The code does not, on a name
    that [Object.prototype] defines: the first [throttle('toString', func,
    interval)] on a new registry returns undefined, runs nothing and
    records no timestamp; it only reads the clock. *)
Theorem throttle_toString_first_call func interval clk :
  throttle "toString" func interval (new_ZLimit clk) =
  (VUndefined, World ∅ ∅ clk 1 []).
Proof. apply throttle_inherited; reflexivity. Qed.

(** C3.  The claim: for every name the first [once] executes the action and
    returns true.  The code does not, on a name that [Object.prototype]
    defines: [once('constructor', func)] on a new registry returns false
    and runs nothing, now and on every later call. *)
Theorem once_constructor_never_executes func k clk :
  run (replicate k (Once "constructor" func)) (new_ZLimit clk) =
  (replicate k (VBool false), new_ZLimit clk).
Proof.
  induction k as [|k IH]; [reflexivity|].
  simpl replicate. rewrite run_cons.
  unfold returned, after; simpl exec. unfold once.
  rewrite limit_inherited by reflexivity. simpl.
  rewrite IH. reflexivity.
Qed.

(** C4.  The claim: [clear] returns true if and only if a timestamp or a
    quota was recorded for the name, and otherwise leaves both mappings
    unchanged and returns false.  On a new registry, which records
    nothing for [valueOf], [clear('valueOf')] leaves the mappings unchanged
    and yet returns true. *)
Theorem clear_valueOf_reports_reset clk :
  timeouts (new_ZLimit clk) !! "valueOf" = None ∧
  remainingCalls (new_ZLimit clk) !! "valueOf" = None ∧
  clear "valueOf" (new_ZLimit clk) = (VBool true, new_ZLimit clk).
Proof. repeat split. Qed.

(** What [clear] does reset.  After [clear(name)] both entries are gone,
    the membership tests answer as on an empty object, and every sequence
    of calls on [name] returns the same values, runs the same closures and
    leaves the same entries as on a registry that saw no name at all; so
    [limit('a', f, 2)], [clear('a')], then [limit('a', f, 2)] twice run
    [f] three times. *)
Theorem clear_forgets_name name w rs :
  let w' := after (clear name) w in
  (timeouts w' !! name = None ∧ remainingCalls w' !! name = None) ∧
  (js_in name (timeouts w') = js_in name ∅ ∧
   js_in name (remainingCalls w') = js_in name ∅) ∧
  (returned (run (map (on name) rs)) w' =
     returned (run (map (on name) rs)) (unseen_registry w) ∧
   view name (after (run (map (on name) rs)) w') =
     view name (after (run (map (on name) rs)) (unseen_registry w))) ∧
  (∀ clk,
     run [Limit "a" "f" 2; Clear "a"; Limit "a" "f" 2; Limit "a" "f" 2]
         (new_ZLimit clk) =
     ([VBool true; VBool true; VBool true; VBool true],
      World ∅ {["a" := VNumber 0]} clk 0 ["f"; "f"; "f"])).
Proof.
  intros w'. pose proof (clear_removes name w) as [Ht Hr]. fold w' in Ht, Hr.
  split; [split; assumption|]. split; [|split].
  - split; apply js_in_local; rewrite lookup_empty; assumption.
  - apply run_local. unfold view. rewrite Ht, Hr. simpl.
    rewrite !lookup_empty. unfold w', after. rewrite clear_unfold. reflexivity.
  - intros clk. vm_compute. reflexivity.
Qed.

(** C5.  The claim: after [clear(name)] the next [limit] or [throttle]
    follows the first-call branch, so that [limit(name, f, 2)],
    [clear(name)], [limit(name, f, 2)] twice executes on all three [limit]
    calls.  The code does not, on a name that [Object.prototype] defines:
    on a new registry [clear('toString')] returns true, and the [limit]
    calls before and after it all return false, seed no quota and run
    nothing; a [throttle] after it returns undefined and records no
    timestamp. *)
Theorem clear_toString_no_first_call func clk :
  run [Limit "toString" func 2; Clear "toString";
       Limit "toString" func 2; Limit "toString" func 2] (new_ZLimit clk) =
  ([VBool false; VBool true; VBool false; VBool false], new_ZLimit clk) ∧
  run [Clear "toString"; Throttle "toString" func 5] (new_ZLimit clk) =
  ([VBool true; VUndefined], World ∅ ∅ clk 1 []).
Proof. split; reflexivity. Qed.

(** C7.  The claim: [clear(name)] returns false for every name never passed
    to the registry, the keys inherited from [Object.prototype] included.
    On a new registry, to which nothing was ever passed,
    [clear('toString')] and [clear('hasOwnProperty')] return true. *)
Theorem clear_inherited_key_returns_true clk :
  returned (clear "toString") (new_ZLimit clk) = VBool true ∧
  returned (clear "hasOwnProperty") (new_ZLimit clk) = VBool true.
Proof. split; reflexivity. Qed.

(** C8, the claim as stated fails: [limit('x', f, -1)] on a new registry
    raises nothing, records the quota -1 under [x] and so changes the quota
    mapping. *)
Lemma limit_negative_counterexample :
  let w := new_ZLimit (steady 0) in
  remainingCalls (after (limit "x" "f" (-1)) w) !! "x" = Some (VNumber (-1)) ∧
  remainingCalls (after (limit "x" "f" (-1)) w) ≠ remainingCalls w.
Proof.
  intros w.
  assert (remainingCalls (after (limit "x" "f" (-1)) w) !! "x"
          = Some (VNumber (-1))) as Hx by (vm_compute; reflexivity).
  split; [exact Hx|].
  intros H. rewrite H in Hx. discriminate.
Qed.

(** C8, amended.  No argument is validated.  On a name that holds no entry
    and that [Object.prototype] does not define, [limit] with a negative
    maxCalls records that negative number as the quota, runs nothing and
    returns false; [throttle] with a negative interval records the time,
    runs the closure and returns false, as with any other interval. *)
Theorem negative_arguments_accepted name func n w :
  n < 0 →
  inherited name = false →
  timeouts w !! name = None →
  remainingCalls w !! name = None →
  limit name func n w =
    (VBool false,
     World (timeouts w) (<[name := VNumber n]> (remainingCalls w))
           (clock w) (reads w) (calls w)) ∧
  throttle name func n w =
    (VBool false,
     World (<[name := VNumber (clock w (reads w))]> (timeouts w))
           (remainingCalls w) (clock w) (S (reads w)) (calls w ++ [func])).
Proof.
  intros Hn Hi Ht Hr. split.
  - rewrite (limit_first _ _ _ _ Hi Hr).
    rewrite bool_decide_eq_false_2 by lia. reflexivity.
  - apply throttle_first; assumption.
Qed.

Lemma negative_arguments_accepted_witness :
  let w := new_ZLimit (steady 7) in
  (-1 < 0 ∧ inherited "x" = false ∧
   timeouts w !! "x" = None ∧ remainingCalls w !! "x" = None) ∧
  limit "x" "f" (-1) w =
    (VBool false,
     World (timeouts w) (<["x" := VNumber (-1)]> (remainingCalls w))
           (clock w) (reads w) (calls w)) ∧
  throttle "x" "f" (-1) w =
    (VBool false,
     World (<["x" := VNumber (clock w (reads w))]> (timeouts w))
           (remainingCalls w) (clock w) (S (reads w)) (calls w ++ ["f"])).
Proof.
  intros w.
  assert (-1 < 0) as Hn by lia.
  assert (inherited "x" = false) as Hi by reflexivity.
  assert (timeouts w !! "x" = None) as Ht by reflexivity.
  assert (remainingCalls w !! "x" = None) as Hr by reflexivity.
  split; [auto|].
  exact (negative_arguments_accepted "x" "f" (-1) w Hn Hi Ht Hr).
Defined.

(** C9.  The claim: [limit(name, action, 0)] on a name with no quota entry
    creates an entry seeded with 0, and a negative maxCalls on a first call
    is stored as it is.  The code does not, on a name that
    [Object.prototype] defines: the first [limit('toString', func, 0)] and
    the first [limit('toString', func, -1)] on a new registry record
    nothing. *)
Theorem limit_toString_records_nothing func clk :
  remainingCalls (new_ZLimit clk) !! "toString" = None ∧
  limit "toString" func 0 (new_ZLimit clk) = (VBool false, new_ZLimit clk) ∧
  limit "toString" func (-1) (new_ZLimit clk) = (VBool false, new_ZLimit clk).
Proof. repeat split. Qed.

(** * Further properties of the registry *)

Lemma run_returned_cons c cs w :
  returned (run (c :: cs)) w =
  returned (exec c) w :: returned (run cs) (after (exec c) w).
Proof. unfold returned at 1. rewrite run_cons. reflexivity. Qed.

Lemma returned_eq {A} (m : M A) w a w' : m w = (a, w') → returned m w = a.
Proof. unfold returned. intros ->. reflexivity. Qed.

Lemma after_eq {A} (m : M A) w a w' : m w = (a, w') → after m w = w'.
Proof. unfold after. intros ->. reflexivity. Qed.

(** ** [once] after [limit] *)

Example once_after_limit clk :
  run [Limit "k" "a" 2; Once "k" "b"; Limit "k" "c" 7; Once "k" "d"]
      (new_ZLimit clk) =
  ([VBool true; VBool true; VBool false; VBool false],
   World ∅ {["k" := VNumber 0]} clk 0 ["a"; "b"]).
Proof. vm_compute. reflexivity. Qed.

(** ** The environment of a history *)

Lemma exec_clock c w : clock (after (exec c) w) = clock w.
Proof.
  unfold after. destruct c as [n f|n f i|n f m|n]; simpl; unfold once;
    rewrite ?limit_unfold, ?throttle_unfold, ?clear_unfold; simpl;
    try reflexivity.
  - destruct (_ && _); reflexivity.
  - destruct (negb _); [|destruct (number_ge _ _)]; reflexivity.
  - destruct (_ && _); reflexivity.
Qed.

Lemma exec_reads c w : (reads w ≤ reads (after (exec c) w))%nat.
Proof.
  unfold after. destruct c as [n f|n f i|n f m|n]; simpl; unfold once;
    rewrite ?limit_unfold, ?throttle_unfold, ?clear_unfold; simpl;
    try lia.
  - destruct (_ && _); simpl; lia.
  - destruct (negb _); [|destruct (number_ge _ _)]; simpl; lia.
  - destruct (_ && _); simpl; lia.
Qed.

Lemma run_clock cs : ∀ w, clock (after (run cs) w) = clock w.
Proof.
  induction cs as [|c cs IH]; intros w; [reflexivity|].
  rewrite run_after_cons, IH. apply exec_clock.
Qed.

Lemma limit_reads name func n w :
  reads (after (limit name func n) w) = reads w.
Proof.
  unfold after. rewrite limit_unfold; simpl. destruct (_ && _); reflexivity.
Qed.

Lemma js_set_lookup_Some (o : jsobj) k v m x :
  js_set o k v !! m = Some x → x = v ∨ o !! m = Some x.
Proof.
  unfold js_set.
  destruct (o !! k); [|destruct (bool_decide _); [auto|]];
    (destruct (decide (k = m)) as [->|Hne];
     [rewrite lookup_insert_eq; intros [= <-]; auto
     |rewrite lookup_insert_ne by assumption; auto]).
Qed.

(** ** Timestamps are clock readings *)

Lemma exec_stamps_ok c w : stamps_ok w → stamps_ok (after (exec c) w).
Proof.
  intros Hok m x.
  assert (∀ n f k, timeouts (after (limit n f k) w) !! m = Some x →
            ∃ i : nat, (i < reads (after (limit n f k) w))%nat ∧
                       x = VNumber (clock (after (limit n f k) w) i)) as Hlimit.
  { intros n f k. rewrite limit_timeouts, limit_reads.
    change (after (limit n f k) w) with (after (exec (Limit n f k)) w).
    rewrite exec_clock. apply Hok. }
  destruct c as [n f|n f i|n f k|n]; simpl; unfold once; try apply Hlimit.
  - unfold after. rewrite throttle_unfold; simpl.
    destruct (negb _); [|destruct (number_ge _ _)]; simpl; intros H.
    + apply js_set_lookup_Some in H as [->|H].
      * exists (reads w). split; [lia|reflexivity].
      * destruct (Hok _ _ H) as (j & Hj & ->). exists j. split; [lia|reflexivity].
    + apply js_set_lookup_Some in H as [->|H].
      * exists (S (reads w)). split; [lia|reflexivity].
      * destruct (Hok _ _ H) as (j & Hj & ->). exists j. split; [lia|reflexivity].
    + destruct (Hok _ _ H) as (j & Hj & ->). exists j. split; [lia|reflexivity].
  - unfold after. rewrite clear_unfold; simpl. unfold js_delete. intros H.
    apply lookup_delete_Some in H as [_ H]. exact (Hok _ _ H).
Qed.

Lemma run_stamps_ok cs : ∀ w, stamps_ok w → stamps_ok (after (run cs) w).
Proof.
  induction cs as [|c cs IH]; intros w Hok; [exact Hok|].
  rewrite run_after_cons. apply IH, exec_stamps_ok, Hok.
Qed.

Lemma new_stamps_ok clk : stamps_ok (new_ZLimit clk).
Proof. intros m x H. simpl in H. rewrite lookup_empty in H. discriminate. Qed.

(** X3.  Whatever the history, every timestamp the registry holds is a
    number that [Date.now()] returned during that history. *)
Theorem timestamps_are_clock_readings cs clk name v :
  timeouts (after (run cs) (new_ZLimit clk)) !! name = Some v →
  ∃ i : nat, (i < reads (after (run cs) (new_ZLimit clk)))%nat ∧
             v = VNumber (clk i).
Proof.
  intros H.
  destruct (run_stamps_ok cs _ (new_stamps_ok clk) _ _ H) as (i & Hi & ->).
  rewrite run_clock. exists i. split; [exact Hi|reflexivity].
Qed.

Lemma timestamps_are_clock_readings_witness :
  let cs := [Throttle "z" "f" 5; Limit "z" "f" 1; Throttle "z" "f" 5] in
  let clk := ticking [10; 20; 30] in
  timeouts (after (run cs) (new_ZLimit clk)) !! "z" = Some (VNumber 30) ∧
  ∃ i : nat, (i < reads (after (run cs) (new_ZLimit clk)))%nat ∧
             VNumber 30 = VNumber (clk i).
Proof.
  intros cs clk.
  assert (timeouts (after (run cs) (new_ZLimit clk)) !! "z"
          = Some (VNumber 30)) as H by reflexivity.
  split; [exact H|].
  exact (timestamps_are_clock_readings cs clk "z" (VNumber 30) H).
Defined.

(** X5.  An interval of 0 or less throttles nothing, as long as the clock
    never runs backwards: after any history from a new registry,
    [throttle] on a name that [Object.prototype] does not define runs the
    closure and does not return undefined. *)
Theorem nonpositive_interval_never_suppresses cs clk name func interval :
  monotone clk →
  inherited name = false →
  interval ≤ 0 →
  returned (throttle name func interval) (after (run cs) (new_ZLimit clk))
    ≠ VUndefined ∧
  calls (after (throttle name func interval) (after (run cs) (new_ZLimit clk)))
    = calls (after (run cs) (new_ZLimit clk)) ++ [func].
Proof.
  intros Hmono Hi Hint.
  set (w := after (run cs) (new_ZLimit clk)).
  assert (clock w = clk) as Hclk by apply run_clock.
  destruct (timeouts w !! name) as [v|] eqn:Ht.
  - destruct (run_stamps_ok cs _ (new_stamps_ok clk) _ _ Ht) as (i & Hlt & ->).
    fold w in Hlt. fold w in Ht.
    pose proof (throttle_repeat name func interval _ w Ht) as Hth.
    rewrite bool_decide_eq_true_2 in Hth.
    + rewrite (returned_eq _ _ _ _ Hth), (after_eq _ _ _ _ Hth).
      split; [discriminate|reflexivity].
    + fold w. rewrite Hclk. pose proof (Hmono i (reads w)). lia.
  - pose proof (throttle_first name func interval w Hi Ht) as Hth.
    rewrite (returned_eq _ _ _ _ Hth), (after_eq _ _ _ _ Hth).
    split; [discriminate|reflexivity].
Qed.

Lemma nonpositive_interval_never_suppresses_witness :
  let clk := λ k : nat, Z.of_nat k in
  let cs := [Throttle "z" "f" 100; Throttle "z" "f" 100] in
  (monotone clk ∧ inherited "z" = false ∧ 0 ≤ 0) ∧
  returned (throttle "z" "g" 0) (after (run cs) (new_ZLimit clk))
    ≠ VUndefined ∧
  calls (after (throttle "z" "g" 0) (after (run cs) (new_ZLimit clk)))
    = calls (after (run cs) (new_ZLimit clk)) ++ ["g"].
Proof.
  intros clk cs.
  assert (monotone clk) as Hmono by (intros i j Hij; unfold clk; lia).
  assert (inherited "z" = false) as Hi by reflexivity.
  assert (0 ≤ 0) as H0 by lia.
  split; [auto|].
  exact (nonpositive_interval_never_suppresses cs clk "z" "g" 0 Hmono Hi H0).
Defined.

(** ** The keys of [Object.prototype] *)

Lemma exec_own_clean c w : own_clean w → own_clean (after (exec c) w).
Proof.
  intros Hok k Hk. destruct (Hok k Hk) as [Ht Hr].
  destruct (decide (call_name c = k)) as [Heq|Hne].
  - destruct c as [n f|n f i|n f m|n]; simpl in Heq; subst n; simpl;
      unfold once, after;
      rewrite ?(limit_inherited _ _ _ _ Hk Hr),
              ?(throttle_inherited _ _ _ _ Hk Ht), ?clear_unfold; simpl;
      rewrite ?js_delete_same; auto.
  - rewrite exec_other_timeouts, exec_other_remainingCalls by exact Hne. auto.
Qed.

Lemma run_own_clean cs : ∀ w, own_clean w → own_clean (after (run cs) w).
Proof.
  induction cs as [|c cs IH]; intros w Hok; [exact Hok|].
  rewrite run_after_cons. apply IH, exec_own_clean, Hok.
Qed.

Lemma new_own_clean clk : own_clean (new_ZLimit clk).
Proof. intros k _. simpl. rewrite !lookup_empty. auto. Qed.

(** X6.  A name that is a key of [Object.prototype] is dead on every
    registry, whatever its history: the registry never records anything
    under it, [limit] and [once] on it return false and change nothing,
    [throttle] on it returns undefined, runs nothing and records nothing,
    and [clear] on it returns true. *)
Theorem inherited_name_is_dead cs clk name :
  inherited name = true →
  let w := after (run cs) (new_ZLimit clk) in
  (timeouts w !! name = None ∧ remainingCalls w !! name = None) ∧
  (∀ func n, limit name func n w = (VBool false, w)) ∧
  (∀ func, once name func w = (VBool false, w)) ∧
  (∀ func interval,
     throttle name func interval w =
     (VUndefined,
      World (timeouts w) (remainingCalls w) (clock w) (S (reads w)) (calls w))) ∧
  clear name w = (VBool true, w).
Proof.
  intros Hi w.
  destruct (run_own_clean cs _ (new_own_clean clk) name Hi) as [Ht Hr].
  fold w in Ht, Hr.
  split; [split; assumption|]. repeat split.
  - intros func n. apply limit_inherited; assumption.
  - intros func. apply limit_inherited; assumption.
  - intros func interval. apply throttle_inherited; assumption.
  - rewrite clear_unfold. rewrite (js_in_inherited _ _ Hi). simpl.
    unfold js_delete. rewrite !delete_id by assumption.
    destruct w; reflexivity.
Qed.

Lemma inherited_name_is_dead_witness :
  let cs := [Limit "a" "f" 2; Throttle "hasOwnProperty" "f" 0;
             Limit "hasOwnProperty" "f" 4; Clear "hasOwnProperty"] in
  let w := after (run cs) (new_ZLimit (steady 0)) in
  inherited "hasOwnProperty" = true ∧
  (timeouts w !! "hasOwnProperty" = None ∧
   remainingCalls w !! "hasOwnProperty" = None) ∧
  (∀ func n, limit "hasOwnProperty" func n w = (VBool false, w)) ∧
  (∀ func, once "hasOwnProperty" func w = (VBool false, w)) ∧
  (∀ func interval,
     throttle "hasOwnProperty" func interval w =
     (VUndefined,
      World (timeouts w) (remainingCalls w) (clock w) (S (reads w)) (calls w))) ∧
  clear "hasOwnProperty" w = (VBool true, w).
Proof.
  intros cs w.
  assert (inherited "hasOwnProperty" = true) as Hi by reflexivity.
  split; [exact Hi|].
  exact (inherited_name_is_dead cs (steady 0) "hasOwnProperty" Hi).
Defined.

(** ** [clear] and the other methods *)

Lemma js_in_own_name (o : jsobj) k :
  inherited k = false → js_in k o = true → is_Some (o !! k).
Proof.
  unfold js_in. intros ->. rewrite orb_false_r.
  intros H. apply bool_decide_eq_true in H. exact H.
Qed.

Lemma js_set_is_Some (o : jsobj) k v :
  inherited k = false ∨ is_Some (o !! k) → is_Some (js_set o k v !! k).
Proof.
  intros [Hi|[x Hx]].
  - rewrite (js_set_new _ _ _ Hi), lookup_insert_eq. eauto.
  - rewrite (js_set_own _ _ _ _ Hx), lookup_insert_eq. eauto.
Qed.

Lemma limit_records name func n w :
  inherited name = false ∨ is_Some (remainingCalls w !! name) →
  is_Some (remainingCalls (after (limit name func n) w) !! name).
Proof.
  intros H. unfold after. rewrite limit_unfold; simpl.
  set (r := if js_in name (remainingCalls w) then remainingCalls w else _).
  assert (is_Some (r !! name)) as Hr.
  { unfold r. destruct (js_in name (remainingCalls w)) eqn:Hin.
    - destruct H as [Hi|H]; [exact (js_in_own_name _ _ Hi Hin)|exact H].
    - apply js_set_is_Some. left.
      unfold js_in in Hin. apply orb_false_iff in Hin as [_ Hin]. exact Hin. }
  destruct (_ && _); simpl; [apply js_set_is_Some; right|]; exact Hr.
Qed.

Lemma throttle_records name func interval w :
  inherited name = false ∨ is_Some (timeouts w !! name) →
  is_Some (timeouts (after (throttle name func interval) w) !! name).
Proof.
  intros H. unfold after. rewrite throttle_unfold; simpl.
  destruct (js_in name (timeouts w)) eqn:Hin; simpl.
  - assert (is_Some (timeouts w !! name)) as Ht
      by (destruct H as [Hi|H]; [exact (js_in_own_name _ _ Hi Hin)|exact H]).
    destruct (number_ge _ _); simpl; [apply js_set_is_Some; right|]; exact Ht.
  - apply js_set_is_Some. left.
    unfold js_in in Hin. apply orb_false_iff in Hin as [_ Hin]. exact Hin.
Qed.

(** X8.  [clear] is idempotent: a second [clear] of the same name changes
    nothing more, and, on a name that [Object.prototype] does not define,
    returns false. *)
Theorem clear_twice name w :
  inherited name = false →
  after (clear name) (after (clear name) w) = after (clear name) w ∧
  returned (clear name) (after (clear name) w) = VBool false.
Proof.
  intros Hi. split.
  - unfold after. rewrite !clear_unfold; simpl.
    unfold js_delete. rewrite !delete_delete_eq. reflexivity.
  - rewrite (clear_own_name _ _ Hi).
    destruct (clear_removes name w) as [-> ->]. reflexivity.
Qed.

Lemma clear_twice_witness :
  let w := after (run [Limit "x" "f" 2; Throttle "x" "f" 5])
                 (new_ZLimit (steady 0)) in
  inherited "x" = false ∧
  after (clear "x") (after (clear "x") w) = after (clear "x") w ∧
  returned (clear "x") (after (clear "x") w) = VBool false.
Proof.
  intros w.
  assert (inherited "x" = false) as Hi by reflexivity.
  split; [exact Hi|]. exact (clear_twice "x" w Hi).
Defined.

(** ** What a call returns and whether it ran the closure *)

(** X9.  The value returned tells whether the closure ran.  [limit] returns
    true or false, true exactly when it ran [func].  [throttle] ran [func]
    exactly when it did not return undefined; it returns false, not true,
    on the call that finds no timestamp, although it ran [func] then.
    [clear] runs nothing.  No call runs [func] more than once. *)
Theorem result_tells_whether_func_ran name func n interval w :
  (calls (after (limit name func n) w) =
     calls w ++ (if bool_decide (returned (limit name func n) w = VBool true)
                 then [func] else []) ∧
   (returned (limit name func n) w = VBool true ∨
    returned (limit name func n) w = VBool false)) ∧
  (calls (after (throttle name func interval) w) =
     calls w ++ (if bool_decide (returned (throttle name func interval) w
                                 = VUndefined)
                 then [] else [func]) ∧
   (returned (throttle name func interval) w = VBool false ↔
    js_in name (timeouts w) = false)) ∧
  calls (after (clear name) w) = calls w.
Proof.
  unfold after, returned.
  rewrite limit_unfold, throttle_unfold, clear_unfold; simpl.
  repeat split.
  - destruct (_ && _); simpl; [reflexivity|]. rewrite app_nil_r. reflexivity.
  - destruct (_ && _); simpl; auto.
  - destruct (negb _); [|destruct (number_ge _ _)]; simpl;
      rewrite ?app_nil_r; reflexivity.
  - destruct (js_in name (timeouts w)); simpl; [|reflexivity].
    destruct (number_ge _ _); simpl; discriminate.
  - intros ->. reflexivity.
Qed.

(** ** Entries come from calls and go only with [clear] *)

Lemma exec_keeps_entries name c w :
  c ≠ Clear name →
  (is_Some (timeouts w !! name) →
   is_Some (timeouts (after (exec c) w) !! name)) ∧
  (is_Some (remainingCalls w !! name) →
   is_Some (remainingCalls (after (exec c) w) !! name)).
Proof.
  intros Hc.
  destruct (decide (call_name c = name)) as [Heq|Hne].
  - destruct c as [n f|n f i|n f m|n]; simpl in Heq; subst n; simpl;
      unfold once; rewrite ?limit_timeouts, ?throttle_remainingCalls;
      try contradiction; (split; [|]); auto using limit_records, throttle_records.
  - rewrite exec_other_timeouts, exec_other_remainingCalls by exact Hne. auto.
Qed.

(** X10.  Nothing but [clear(name)] ever removes an entry: through a
    history that does not clear [name], a timestamp recorded for [name]
    stays recorded and so does a quota, spent or not. *)
Theorem entries_stay_until_cleared name cs : ∀ w,
  Clear name ∉ cs →
  (is_Some (timeouts w !! name) →
   is_Some (timeouts (after (run cs) w) !! name)) ∧
  (is_Some (remainingCalls w !! name) →
   is_Some (remainingCalls (after (run cs) w) !! name)).
Proof.
  induction cs as [|c cs IH]; intros w Hcs; [auto|].
  apply not_elem_of_cons in Hcs as [Hc Hcs].
  rewrite run_after_cons.
  destruct (exec_keeps_entries name c w) as [Ht Hr]; [congruence|].
  destruct (IH (after (exec c) w) Hcs) as [IHt IHr]. auto.
Qed.

Lemma entries_stay_until_cleared_witness :
  let w := after (run [Once "x" "f"; Throttle "x" "f" 5])
                 (new_ZLimit (steady 0)) in
  let cs := [Once "x" "f"; Clear "y"; Throttle "x" "f" 0; Limit "x" "f" 3] in
  (Clear "x" ∉ cs) ∧
  (is_Some (timeouts w !! "x") →
   is_Some (timeouts (after (run cs) w) !! "x")) ∧
  (is_Some (remainingCalls w !! "x") →
   is_Some (remainingCalls (after (run cs) w) !! "x")).
Proof.
  intros w cs.
  assert (Clear "x" ∉ cs) as Hcs.
  { unfold cs. rewrite !not_elem_of_cons.
    repeat split; try discriminate. apply not_elem_of_nil. }
  split; [exact Hcs|]. exact (entries_stay_until_cleared "x" cs w Hcs).
Defined.

Lemma exec_new_entries name c w :
  (is_Some (timeouts (after (exec c) w) !! name) →
   is_Some (timeouts w !! name) ∨ (is_throttle c = true ∧ call_name c = name)) ∧
  (is_Some (remainingCalls (after (exec c) w) !! name) →
   is_Some (remainingCalls w !! name) ∨ draws_on name c = true).
Proof.
  destruct (decide (call_name c = name)) as [Heq|Hne].
  - destruct c as [n f|n f i|n f m|n]; simpl in Heq; subst n; simpl;
      unfold once; rewrite ?limit_timeouts, ?throttle_remainingCalls,
        ?bool_decide_eq_true_2 by reflexivity; auto.
    unfold after. rewrite clear_unfold; simpl. rewrite !js_delete_same.
    split; intros [? ?]; discriminate.
  - rewrite exec_other_timeouts, exec_other_remainingCalls by exact Hne. auto.
Qed.

Lemma run_new_entries name cs : ∀ w,
  (is_Some (timeouts (after (run cs) w) !! name) →
   is_Some (timeouts w !! name) ∨
   ∃ c, c ∈ cs ∧ is_throttle c = true ∧ call_name c = name) ∧
  (is_Some (remainingCalls (after (run cs) w) !! name) →
   is_Some (remainingCalls w !! name) ∨
   ∃ c, c ∈ cs ∧ draws_on name c = true).
Proof.
  induction cs as [|c cs IH]; intros w; [auto|].
  rewrite run_after_cons.
  destruct (IH (after (exec c) w)) as [IHt IHr].
  destruct (exec_new_entries name c w) as [Ht Hr].
  split; intros H.
  - destruct (IHt H) as [H1|(c' & Hin & Hc')].
    + destruct (Ht H1) as [?|?]; [auto|].
      right. exists c. split; [apply list_elem_of_here|assumption].
    + right. exists c'. split; [apply list_elem_of_further|]; assumption.
  - destruct (IHr H) as [H1|(c' & Hin & Hc')].
    + destruct (Hr H1) as [?|?]; [auto|].
      right. exists c. split; [apply list_elem_of_here|assumption].
    + right. exists c'. split; [apply list_elem_of_further|]; assumption.
Qed.

(** X11.  The registry records nothing on its own: after any history from
    a new registry, a name has a timestamp only if the history holds a
    [throttle] of that name, and a quota only if it holds a [limit] or
    [once] of that name; and the name is no key of [Object.prototype]. *)
Theorem entries_come_from_calls cs clk name :
  let w := after (run cs) (new_ZLimit clk) in
  (is_Some (timeouts w !! name) →
   inherited name = false ∧
   ∃ c, c ∈ cs ∧ is_throttle c = true ∧ call_name c = name) ∧
  (is_Some (remainingCalls w !! name) →
   inherited name = false ∧
   ∃ c, c ∈ cs ∧ draws_on name c = true).
Proof.
  intros w.
  destruct (run_new_entries name cs (new_ZLimit clk)) as [Ht Hr].
  pose proof (run_own_clean cs _ (new_own_clean clk) name) as Hclean.
  fold w in Ht, Hr, Hclean.
  assert (∀ o : jsobj, is_Some (o !! name) → o !! name ≠ None) as Hsome
    by (intros o [x ->]; discriminate).
  split; intros H.
  - split.
    + destruct (inherited name); [|reflexivity].
      destruct (Hclean eq_refl) as [Hn _]. destruct (Hsome _ H Hn).
    + destruct (Ht H) as [[x Hx]|?]; [|assumption].
      simpl in Hx. rewrite lookup_empty in Hx. discriminate.
  - split.
    + destruct (inherited name); [|reflexivity].
      destruct (Hclean eq_refl) as [_ Hn]. destruct (Hsome _ H Hn).
    + destruct (Hr H) as [[x Hx]|?]; [|assumption].
      simpl in Hx. rewrite lookup_empty in Hx. discriminate.
Qed.

(** ** What a call reads of the registry *)

Lemma limit_depends_on_quota name func n w1 w2 :
  remainingCalls w1 !! name = remainingCalls w2 !! name →
  returned (limit name func n) w1 = returned (limit name func n) w2 ∧
  remainingCalls (after (limit name func n) w1) !! name =
  remainingCalls (after (limit name func n) w2) !! name.
Proof.
  unfold returned, after. intros Hr.
  rewrite !limit_unfold; simpl.
  rewrite (js_in_local _ _ _ Hr).
  set (r1 := if js_in name (remainingCalls w2) then remainingCalls w1 else _).
  set (r2 := if js_in name (remainingCalls w2) then remainingCalls w2 else _).
  assert (r1 !! name = r2 !! name) as Hr'.
  { unfold r1, r2. destruct (js_in name (remainingCalls w2));
      [assumption|apply js_set_local, Hr]. }
  rewrite (js_in_local _ _ _ Hr'), (js_get_local _ _ _ Hr').
  destruct (_ && _); simpl;
    rewrite ?(js_set_local r1 r2) by assumption; split; congruence.
Qed.

Lemma exec_reads_eq c w :
  is_throttle c = false → reads (after (exec c) w) = reads w.
Proof.
  destruct c as [n f|n f i|n f m|n]; simpl; intros H; try discriminate;
    unfold once; rewrite ?limit_reads; try reflexivity.
  unfold after. rewrite clear_unfold. reflexivity.
Qed.

Lemma exec_insensitive c w1 w2 :
  timeouts w1 !! call_name c = timeouts w2 !! call_name c →
  remainingCalls w1 !! call_name c = remainingCalls w2 !! call_name c →
  clock w1 = clock w2 →
  (is_throttle c = true → reads w1 = reads w2) →
  returned (exec c) w1 = returned (exec c) w2 ∧
  timeouts (after (exec c) w1) !! call_name c =
    timeouts (after (exec c) w2) !! call_name c ∧
  remainingCalls (after (exec c) w1) !! call_name c =
    remainingCalls (after (exec c) w2) !! call_name c.
Proof.
  intros Ht Hr Hclk Hrd.
  destruct c as [n f|n f i|n f m|n]; simpl in *; unfold once.
  - destruct (limit_depends_on_quota n f 1 w1 w2 Hr) as [-> ->].
    rewrite !limit_timeouts. auto.
  - rewrite !throttle_remainingCalls. unfold returned, after.
    rewrite !throttle_unfold; simpl.
    rewrite (js_in_local _ _ _ Ht), (js_get_local _ _ _ Ht), Hclk, (Hrd eq_refl).
    destruct (negb _); [|destruct (number_ge _ _)]; simpl;
      rewrite ?(js_set_local (timeouts w1) (timeouts w2)) by assumption; auto.
  - destruct (limit_depends_on_quota n f m w1 w2 Hr) as [-> ->].
    rewrite !limit_timeouts. auto.
  - unfold returned, after. rewrite !clear_unfold; simpl.
    rewrite (js_in_local _ _ _ Ht), (js_in_local _ _ _ Hr), !js_delete_same.
    auto.
Qed.

(** With closures that only leave their label: calls on two different
    names commute, unless both are [throttle]. *)
Theorem calls_on_different_names_commute c1 c2 w :
  call_name c1 ≠ call_name c2 →
  is_throttle c1 && is_throttle c2 = false →
  returned (exec c1) (after (exec c2) w) = returned (exec c1) w ∧
  returned (exec c2) (after (exec c1) w) = returned (exec c2) w ∧
  timeouts (after (exec c2) (after (exec c1) w)) =
    timeouts (after (exec c1) (after (exec c2) w)) ∧
  remainingCalls (after (exec c2) (after (exec c1) w)) =
    remainingCalls (after (exec c1) (after (exec c2) w)).
Proof.
  intros Hne Hth.
  assert (∀ a b, call_name a ≠ call_name b →
            is_throttle a && is_throttle b = false →
            returned (exec a) (after (exec b) w) = returned (exec a) w ∧
            timeouts (after (exec a) (after (exec b) w)) !! call_name a =
              timeouts (after (exec a) w) !! call_name a ∧
            remainingCalls (after (exec a) (after (exec b) w)) !! call_name a =
              remainingCalls (after (exec a) w) !! call_name a) as Hstep.
  { intros a b Hab Hboth. apply exec_insensitive.
    - apply exec_other_timeouts. congruence.
    - apply exec_other_remainingCalls. congruence.
    - apply exec_clock.
    - intros Ha. apply exec_reads_eq.
      rewrite Ha in Hboth. exact Hboth. }
  destruct (Hstep c1 c2 Hne Hth) as (Hv1 & Ht1 & Hr1).
  destruct (Hstep c2 c1) as (Hv2 & Ht2 & Hr2);
    [congruence|rewrite andb_comm; exact Hth|].
  repeat split; try assumption; apply map_eq; intros k.
  - destruct (decide (call_name c1 = k)) as [<-|Hk1];
      [|destruct (decide (call_name c2 = k)) as [<-|Hk2]].
    + rewrite Ht1. apply exec_other_timeouts. congruence.
    + rewrite Ht2. symmetry. apply exec_other_timeouts. exact Hne.
    + rewrite !exec_other_timeouts by assumption. reflexivity.
  - destruct (decide (call_name c1 = k)) as [<-|Hk1];
      [|destruct (decide (call_name c2 = k)) as [<-|Hk2]].
    + rewrite Hr1. apply exec_other_remainingCalls. congruence.
    + rewrite Hr2. symmetry. apply exec_other_remainingCalls. exact Hne.
    + rewrite !exec_other_remainingCalls by assumption. reflexivity.
Qed.

(** ** A witness for [clear] on a name never passed *)

Lemma clear_unused_own_name_witness :
  let cs := [Limit "y" "f" 1; Throttle "y" "f" 5; Clear "y"; Once "w" "g"] in
  (inherited "x" = false ∧ Forall (λ c, call_name c ≠ "x") cs) ∧
  returned (clear "x") (after (run cs) (new_ZLimit (steady 0))) = VBool false.
Proof.
  intros cs.
  assert (inherited "x" = false) as Hi by reflexivity.
  assert (Forall (λ c, call_name c ≠ "x") cs) as Hcs
    by (repeat constructor; discriminate).
  split; [auto|].
  exact (clear_unused_own_name "x" cs (steady 0) Hi Hcs).
Defined.

(** * Closures that call the registry or throw *)

(** ** Unfolding the methods over a closure *)

Lemma closure_limit_unfold name func n w :
  Closure.limit name func n w =
  let r := if js_in name (remainingCalls w) then remainingCalls w
           else js_set (remainingCalls w) name (VNumber n) in
  let w1 := World (timeouts w) r (clock w) (reads w) (calls w) in
  if js_in name r && gt_number (js_get r name) 0 then
    match func w1 with
    | (Closure.Returned _, w2) =>
        (Closure.Returned (VBool true),
         World (timeouts w2)
               (js_set (remainingCalls w2) name
                       (js_pred (js_get (remainingCalls w2) name)))
               (clock w2) (reads w2) (calls w2))
    | (Closure.Thrown, w2) => (Closure.Thrown, w2)
    end
  else
    (Closure.Returned (VBool false), w1).
Proof.
  unfold Closure.limit, Closure.bind, Closure.lift, Closure.ret,
    in_remainingCalls, get_remainingCalls, set_remainingCalls; simpl.
  destruct (js_in name (remainingCalls w)) eqn:Hin; simpl.
  - rewrite Hin; simpl. destruct w as [t r c rd l]; simpl in *.
    destruct (gt_number _ 0); [|reflexivity].
    destruct (func _) as [[[]|] w2]; reflexivity.
  - destruct (js_in name (js_set _ _ _)); simpl; [|reflexivity].
    destruct (gt_number _ 0); [|reflexivity].
    destruct (func _) as [[[]|] w2]; reflexivity.
Qed.

Lemma closure_throttle_unfold name func interval w :
  Closure.throttle name func interval w =
  let now := clock w (reads w) in
  if negb (js_in name (timeouts w)) then
    match func (World (js_set (timeouts w) name (VNumber now))
                      (remainingCalls w) (clock w) (S (reads w)) (calls w)) with
    | (Closure.Returned _, w2) => (Closure.Returned (VBool false), w2)
    | (Closure.Thrown, w2) => (Closure.Thrown, w2)
    end
  else if number_ge now (js_add (js_get (timeouts w) name) (VNumber interval)) then
    match func (World (timeouts w) (remainingCalls w) (clock w)
                      (S (reads w)) (calls w)) with
    | (Closure.Returned _, w2) =>
        (Closure.Returned (VBool true),
         World (js_set (timeouts w2) name (VNumber (clock w2 (reads w2))))
               (remainingCalls w2) (clock w2) (S (reads w2)) (calls w2))
    | (Closure.Thrown, w2) => (Closure.Thrown, w2)
    end
  else
    (Closure.Returned VUndefined,
     World (timeouts w) (remainingCalls w) (clock w) (S (reads w)) (calls w)).
Proof.
  unfold Closure.throttle, Closure.bind, Closure.lift, Closure.ret,
    in_timeouts, get_timeouts, set_timeouts, Date_now; simpl.
  destruct (js_in name (timeouts w)); simpl.
  - destruct (number_ge _ _); [|reflexivity].
    destruct (func _) as [[[]|] w2]; reflexivity.
  - destruct (func _) as [[[]|] w2]; reflexivity.
Qed.

Lemma closure_clear_unfold name w :
  Closure.clear name w =
  (Closure.Returned
     (VBool (js_in name (timeouts w) || js_in name (remainingCalls w))),
   World (js_delete (timeouts w) name) (js_delete (remainingCalls w) name)
         (clock w) (reads w) (calls w)).
Proof. unfold Closure.clear, Closure.lift. rewrite clear_unfold. reflexivity. Qed.

Lemma closure_final_cons c cs w :
  Closure.final (c :: cs) w = Closure.final cs (Closure.after (Closure.exec c) w).
Proof.
  unfold Closure.final, Closure.after; simpl.
  destruct (Closure.exec c w) as [o w1]; simpl.
  destruct (Closure.run cs w1); reflexivity.
Qed.

Lemma closure_outcomes_cons c cs w :
  Closure.outcomes (c :: cs) w =
  Closure.returned (Closure.exec c) w
  :: Closure.outcomes cs (Closure.after (Closure.exec c) w).
Proof.
  unfold Closure.outcomes, Closure.returned, Closure.after; simpl.
  destruct (Closure.exec c w) as [o w1]; simpl.
  destruct (Closure.run cs w1); reflexivity.
Qed.

(** ** The methods over labels are the methods over closures that leave a
    label *)

Lemma labelled_limit name l n w :
  Closure.limit name (Closure.labelled l) n w = Closure.lift (limit name l n) w.
Proof.
  rewrite closure_limit_unfold. unfold Closure.lift. rewrite limit_unfold.
  simpl. destruct (_ && _); reflexivity.
Qed.

Lemma labelled_throttle name l interval w :
  Closure.throttle name (Closure.labelled l) interval w =
  Closure.lift (throttle name l interval) w.
Proof.
  rewrite closure_throttle_unfold. unfold Closure.lift. rewrite throttle_unfold.
  simpl. destruct (negb _); [|destruct (number_ge _ _)]; reflexivity.
Qed.

Lemma labelled_exec c w :
  Closure.exec (embed c) w = Closure.lift (exec c) w.
Proof.
  destruct c as [n l|n l i|n l m|n]; simpl; unfold Closure.once, once.
  - apply labelled_limit.
  - apply labelled_throttle.
  - apply labelled_limit.
  - reflexivity.
Qed.

(** A history of calls with labels is, call for call, the history of the
    same calls with closures that leave those labels: every call returns,
    with the same value, and the world ends the same. *)
Theorem labelled_run cs : ∀ w,
  Closure.run (map embed cs) w =
  (map Closure.Returned (returned (run cs) w), after (run cs) w).
Proof.
  induction cs as [|c cs IH]; intros w; [reflexivity|].
  rewrite run_after_cons, run_returned_cons. simpl.
  rewrite labelled_exec. unfold Closure.lift, returned, after in *.
  destruct (exec c w) as [v w1]; simpl. rewrite IH. reflexivity.
Qed.

(** ** What a call leaves of another name *)

Lemma closure_exec_other c w m :
  Closure.call_name c ≠ m →
  keeps m (Closure.call_func c) →
  timeouts (Closure.after (Closure.exec c) w) !! m = timeouts w !! m ∧
  remainingCalls (Closure.after (Closure.exec c) w) !! m =
    remainingCalls w !! m.
Proof.
  intros Hne Hk. unfold Closure.after.
  assert (∀ n f k, n ≠ m → keeps m f →
    timeouts (snd (Closure.limit n f k w)) !! m = timeouts w !! m ∧
    remainingCalls (snd (Closure.limit n f k w)) !! m =
      remainingCalls w !! m) as Hlimit.
  { intros n f k Hn Hf. rewrite closure_limit_unfold; simpl.
    set (r := if js_in n (remainingCalls w) then remainingCalls w else _).
    assert (r !! m = remainingCalls w !! m) as Hr.
    { unfold r. destruct (js_in n (remainingCalls w)); [reflexivity|].
      apply js_set_other, Hn. }
    destruct (_ && _); simpl; [|auto].
    specialize (Hf (World (timeouts w) r (clock w) (reads w) (calls w))).
    destruct (f _) as [[[]|] w2]; simpl in *; destruct Hf as [Ht2 Hr2];
      rewrite ?js_set_other by exact Hn; rewrite ?Ht2, ?Hr2; auto. }
  destruct c as [n f|n f i|n f k|n]; simpl in *; unfold Closure.once;
    try (apply Hlimit; assumption).
  - rewrite closure_throttle_unfold; simpl.
    destruct (negb _); [|destruct (number_ge _ _)]; simpl; [| |auto].
    + specialize (Hk (World (js_set (timeouts w) n (VNumber (clock w (reads w))))
                            (remainingCalls w) (clock w) (S (reads w)) (calls w))).
      destruct (f _) as [[[]|] w2]; simpl in *; destruct Hk as [Ht2 Hr2];
        rewrite Ht2, Hr2, js_set_other by exact Hne; auto.
    + specialize (Hk (World (timeouts w) (remainingCalls w) (clock w)
                            (S (reads w)) (calls w))).
      destruct (f _) as [[[]|] w2]; simpl in *; destruct Hk as [Ht2 Hr2];
        rewrite ?js_set_other by exact Hne; rewrite Ht2, Hr2; auto.
  - rewrite closure_clear_unfold; simpl.
    rewrite !js_delete_other by exact Hne. auto.
Qed.

(** C10, the claim as stated fails: on a registry holding a quota of 2 for
    [b], [limit('a', f, 1)] with [f] calling [limit('b', g, 3)] leaves [b]
    a quota of 1. *)
Lemma call_on_a_changes_b :
  let w := Closure.after (Closure.limit "b" (Closure.labelled "g") 2)
                         (new_ZLimit (steady 0)) in
  let f := Closure.calling (Closure.limit "b" (Closure.labelled "g") 3) in
  remainingCalls w !! "b" = Some (VNumber 1) ∧
  remainingCalls (Closure.after (Closure.limit "a" f 1) w) !! "b"
    = Some (VNumber 0) ∧
  remainingCalls (Closure.after (Closure.limit "a" f 1) w) !! "b"
    ≠ remainingCalls w !! "b".
Proof.
  intros w f.
  assert (remainingCalls w !! "b" = Some (VNumber 1)) as H1
    by (vm_compute; reflexivity).
  assert (remainingCalls (Closure.after (Closure.limit "a" f 1) w) !! "b"
          = Some (VNumber 0)) as H2 by (vm_compute; reflexivity).
  split; [exact H1|split; [exact H2|]].
  rewrite H1, H2. discriminate.
Qed.

(** C10, amended.  A call of [once], [throttle], [limit] or [clear] on a
    name changes the timestamp entry and the quota entry of another name
    [m] only through the closure it runs: when that closure leaves the two
    entries of [m] as it found them, whether it returns or throws, so does
    the call. *)
Theorem other_names_change_only_through_func c w m :
  Closure.call_name c ≠ m →
  keeps m (Closure.call_func c) →
  timeouts (Closure.after (Closure.exec c) w) !! m = timeouts w !! m ∧
  remainingCalls (Closure.after (Closure.exec c) w) !! m =
    remainingCalls w !! m.
Proof. apply closure_exec_other. Qed.

Lemma keeps_other_limit m n g k :
  n ≠ m → keeps m (Closure.calling (Closure.limit n (Closure.labelled g) k)).
Proof.
  intros Hn w.
  change (Closure.calling (Closure.limit n (Closure.labelled g) k) w)
    with (match Closure.limit n (Closure.labelled g) k w with
          | (Closure.Returned _, w') => (Closure.Returned tt, w')
          | (Closure.Thrown, w') => (Closure.Thrown, w')
          end).
  rewrite labelled_limit. unfold Closure.lift.
  pose proof (exec_other_timeouts (Limit n g k) w m Hn) as Ht.
  pose proof (exec_other_remainingCalls (Limit n g k) w m Hn) as Hr.
  unfold after in Ht, Hr. simpl in Ht, Hr.
  destruct (limit n g k w) as [v w']; simpl in *. auto.
Qed.

Lemma other_names_change_only_through_func_witness :
  let w := Closure.final [Closure.Limit "b" (Closure.labelled "g") 2;
                          Closure.Throttle "b" (Closure.labelled "g") 5]
                         (new_ZLimit (steady 3)) in
  let c := Closure.Limit "a" (Closure.calling
                                (Closure.limit "c" (Closure.labelled "h") 4)) 2 in
  (Closure.call_name c ≠ "b" ∧ keeps "b" (Closure.call_func c)) ∧
  (remainingCalls (Closure.after (Closure.exec c) w) !! "a" = Some (VNumber 1) ∧
   remainingCalls (Closure.after (Closure.exec c) w) !! "c" = Some (VNumber 3) ∧
   timeouts w !! "b" = Some (VNumber 3) ∧
   remainingCalls w !! "b" = Some (VNumber 1)) ∧
  timeouts (Closure.after (Closure.exec c) w) !! "b" = timeouts w !! "b" ∧
  remainingCalls (Closure.after (Closure.exec c) w) !! "b" =
    remainingCalls w !! "b".
Proof.
  intros w c.
  assert (Closure.call_name c ≠ "b") as Hne by discriminate.
  assert (keeps "b" (Closure.call_func c)) as Hk
    by (apply keeps_other_limit; discriminate).
  split; [auto|]. split; [repeat split; vm_compute; reflexivity|].
  exact (other_names_change_only_through_func c w "b" Hne Hk).
Defined.

(** ** The quota invariant, and what breaks it *)



Lemma closure_throttle_quota name f interval w :
  quota_quiet f →
  remainingCalls (Closure.after (Closure.throttle name f interval) w) =
  remainingCalls w.
Proof.
  intros Hf. unfold Closure.after. rewrite closure_throttle_unfold; simpl.
  destruct (negb _); [|destruct (number_ge _ _)]; simpl; [| |reflexivity].
  - specialize (Hf (World (js_set (timeouts w) name (VNumber (clock w (reads w))))
                          (remainingCalls w) (clock w) (S (reads w)) (calls w))).
    destruct (f _) as [[[]|] w2]; simpl in *; exact Hf.
  - specialize (Hf (World (timeouts w) (remainingCalls w) (clock w)
                          (S (reads w)) (calls w))).
    destruct (f _) as [[[]|] w2]; simpl in *; exact Hf.
Qed.














Lemma quiet_labelled l : quota_quiet (Closure.labelled l).
Proof. intros w. reflexivity. Qed.

Lemma quiet_throwing : quota_quiet Closure.throwing.
Proof. intros w. reflexivity. Qed.

Lemma quiet_no_closure : quota_quiet (Closure.ret tt).
Proof. intros w. reflexivity. Qed.

Lemma quiet_calling_throttle name f interval :
  quota_quiet f → quota_quiet (Closure.calling (Closure.throttle name f interval)).
Proof.
  intros Hf w.
  pose proof (closure_throttle_quota name f interval w Hf) as H.
  unfold Closure.after in H.
  unfold Closure.calling, Closure.bind, Closure.ret.
  destruct (Closure.throttle name f interval w) as [[v|] w']; exact H.
Qed.







(** * Further properties, over closures *)

(** ** The quota is spent one unit per granted call *)

Lemma closure_exec_draw name c k w :
  remainingCalls w !! name = Some (VNumber k) →
  k ≤ two53 →
  is_clear_of name c = false →
  quota_quiet (Closure.call_func c) →
  ∃ spent : Z,
    spent = (if draws name c
                && bool_decide (Closure.returned (Closure.exec c) w
                                = Closure.Returned (VBool true))
             then 1 else 0) ∧
    remainingCalls (Closure.after (Closure.exec c) w) !! name
      = Some (VNumber (k - spent)) ∧
    (0 ≤ k → 0 ≤ k - spent).
Proof.
  intros Hr Hsafe Hc Hq. eexists; split; [reflexivity|].
  assert (∀ n f m, quota_quiet f →
    remainingCalls (Closure.after (Closure.limit n f m) w) !! name =
      Some (VNumber (k - (if bool_decide (n = name)
                             && bool_decide
                                  (Closure.returned (Closure.limit n f m) w
                                   = Closure.Returned (VBool true))
                          then 1 else 0))) ∧
    (0 ≤ k → 0 ≤ k - (if bool_decide (n = name)
                            && bool_decide
                                 (Closure.returned (Closure.limit n f m) w
                                  = Closure.Returned (VBool true))
                      then 1 else 0))) as Hlimit.
  { intros n f m Hf. unfold Closure.after, Closure.returned.
    rewrite closure_limit_unfold; simpl.
    destruct (decide (n = name)) as [->|Hne].
    - rewrite bool_decide_eq_true_2 by reflexivity.
      rewrite (js_in_own _ _ _ Hr); simpl.
      rewrite (js_in_own _ _ _ Hr), (js_get_own _ _ _ Hr); simpl.
      unfold gt_number; simpl.
      destruct (bool_decide (0 < k)) eqn:Hpos; simpl.
      + apply bool_decide_eq_true in Hpos.
        specialize (Hf (World (timeouts w) (remainingCalls w) (clock w)
                              (reads w) (calls w))).
        destruct (f _) as [[[]|] w2]; simpl in *.
        * rewrite Hf, (js_get_own _ _ _ Hr), (js_set_own _ _ _ _ Hr),
            lookup_insert_eq.
          unfold js_pred; simpl. rewrite (round53_pred k Hpos Hsafe).
          split; [reflexivity|lia].
        * rewrite Hf, Hr, Z.sub_0_r. split; [reflexivity|lia].
      + rewrite Hr, Z.sub_0_r. split; [reflexivity|lia].
    - rewrite bool_decide_eq_false_2 by exact Hne. simpl. rewrite Z.sub_0_r.
      split; [|lia].
      set (r := if js_in n (remainingCalls w) then remainingCalls w else _).
      assert (r !! name = Some (VNumber k)) as Hr'.
      { unfold r. destruct (js_in n (remainingCalls w)); [exact Hr|].
        rewrite js_set_other by exact Hne. exact Hr. }
      destruct (_ && _); simpl; [|exact Hr'].
      specialize (Hf (World (timeouts w) r (clock w) (reads w) (calls w))).
      destruct (f _) as [[[]|] w2]; simpl in *; rewrite Hf;
        rewrite ?js_set_other by exact Hne; exact Hr'. }
  destruct c as [n f|n f i|n f m|n]; simpl in *.
  - apply (Hlimit n f 1 Hq).
  - rewrite closure_throttle_quota by exact Hq. rewrite Hr, Z.sub_0_r.
    split; [reflexivity|lia].
  - apply (Hlimit n f m Hq).
  - unfold Closure.after. rewrite closure_clear_unfold; simpl.
    apply bool_decide_eq_false in Hc.
    rewrite js_delete_other by exact Hc. rewrite Hr, Z.sub_0_r.
    split; [reflexivity|lia].
Qed.

(** X1.  Through any history that does not clear [name] and whose closures
    leave the quota mapping as they found it, whether they return or
    throw, a quota of [name] that stands at [k ≤ 2^53] goes down by exactly
    the number of [limit] and [once] calls on [name] that returned true; a
    quota that stands at [k ≥ 0] therefore lets at most [k] calls return
    true. *)
Theorem quota_spent_is_granted name cs : ∀ k w,
  remainingCalls w !! name = Some (VNumber k) →
  k ≤ two53 →
  Forall (λ c, is_clear_of name c = false ∧
               quota_quiet (Closure.call_func c)) cs →
  remainingCalls (Closure.final cs w) !! name =
    Some (VNumber (k - grants name cs (Closure.outcomes cs w))) ∧
  0 ≤ grants name cs (Closure.outcomes cs w) ∧
  (0 ≤ k → grants name cs (Closure.outcomes cs w) ≤ k).
Proof.
  induction cs as [|c cs IH]; intros k w Hr Hsafe Hcs.
  - unfold Closure.final, Closure.outcomes; simpl. rewrite Z.sub_0_r.
    repeat split; [exact Hr|lia|lia].
  - inversion Hcs as [|? ? [Hc Hq] Hcs']; subst.
    destruct (closure_exec_draw name c k w Hr Hsafe Hc Hq)
      as (spent & Hspent & Hr' & Hk').
    assert (0 ≤ spent) by (rewrite Hspent; destruct (_ && _); lia).
    destruct (IH (k - spent) _ Hr') as (IHr & IH0 & IHk); [lia|exact Hcs'|].
    rewrite closure_final_cons, closure_outcomes_cons. simpl grants.
    rewrite <- Hspent, IHr.
    repeat split; [f_equal; f_equal; lia|lia|].
    intros Hk. specialize (Hk' Hk). specialize (IHk Hk'). lia.
Qed.

Lemma quota_spent_is_granted_witness :
  let w := Closure.final [Closure.Limit "x" (Closure.labelled "f") 3]
                         (new_ZLimit (steady 0)) in
  let cs := [Closure.Limit "x" (Closure.labelled "f") 9;
             Closure.Once "x" Closure.throwing;
             Closure.Throttle "x" (Closure.labelled "g") 0;
             Closure.Once "x" (Closure.calling
                (Closure.throttle "x" (Closure.labelled "h") 0));
             Closure.Limit "x" (Closure.labelled "f") 9;
             Closure.Limit "y" (Closure.labelled "f") 1] in
  (remainingCalls w !! "x" = Some (VNumber 2) ∧ 2 ≤ two53 ∧
   Forall (λ c, is_clear_of "x" c = false ∧
                quota_quiet (Closure.call_func c)) cs ∧
   grants "x" cs (Closure.outcomes cs w) = 2) ∧
  remainingCalls (Closure.final cs w) !! "x" =
    Some (VNumber (2 - grants "x" cs (Closure.outcomes cs w))) ∧
  0 ≤ grants "x" cs (Closure.outcomes cs w) ∧
  (0 ≤ 2 → grants "x" cs (Closure.outcomes cs w) ≤ 2).
Proof.
  intros w cs.
  assert (remainingCalls w !! "x" = Some (VNumber 2)) as Hr
    by (vm_compute; reflexivity).
  assert (2 ≤ two53) as Hsafe by (unfold two53; lia).
  assert (Forall (λ c, is_clear_of "x" c = false ∧
                       quota_quiet (Closure.call_func c)) cs) as Hcs.
  { unfold cs. repeat constructor; simpl;
      auto using quiet_labelled, quiet_throwing, quiet_calling_throttle. }
  split; [repeat split; try assumption; vm_compute; reflexivity|].
  exact (quota_spent_is_granted "x" cs 2 w Hr Hsafe Hcs).
Defined.

(** ** Allowed repeats are spaced by the interval *)

Lemma closure_exec_clock c w :
  respects_clock (Closure.call_func c) →
  clock (Closure.after (Closure.exec c) w) = clock w.
Proof.
  intros Hf. unfold Closure.after.
  assert (∀ n f k, respects_clock f →
            clock (snd (Closure.limit n f k w)) = clock w) as Hlimit.
  { intros n f k Hk. rewrite closure_limit_unfold; simpl.
    destruct (_ && _); simpl; [|reflexivity].
    match goal with |- context [f ?w1] => destruct (Hk w1) as [Hc _] end.
    destruct (f _) as [[[]|] w2]; simpl in *; exact Hc. }
  destruct c as [n f|n f i|n f k|n]; simpl in *; unfold Closure.once;
    try (apply Hlimit; assumption).
  - rewrite closure_throttle_unfold; simpl.
    destruct (negb _); [|destruct (number_ge _ _)]; simpl; [| |reflexivity];
      match goal with |- context [f ?w1] => destruct (Hf w1) as [Hc _] end;
      destruct (f _) as [[[]|] w2]; simpl in *; exact Hc.
  - rewrite closure_clear_unfold. reflexivity.
Qed.

Lemma closure_exec_stamp name c w :
  throttles name c = false →
  is_clear_of name c = false →
  keeps_stamp name (Closure.call_func c) →
  timeouts (Closure.after (Closure.exec c) w) !! name = timeouts w !! name.
Proof.
  intros Hth Hcl Hf. unfold Closure.after.
  assert (∀ n f k, keeps_stamp name f →
            timeouts (snd (Closure.limit n f k w)) !! name
            = timeouts w !! name) as Hlimit.
  { intros n f k Hk. rewrite closure_limit_unfold; simpl.
    destruct (_ && _); simpl; [|reflexivity].
    match goal with |- context [f ?w1] => pose proof (Hk w1) as Hs end.
    destruct (f _) as [[[]|] w2]; simpl in *; exact Hs. }
  destruct c as [n f|n f i|n f k|n]; simpl in *; unfold Closure.once;
    try (apply Hlimit; assumption).
  - apply bool_decide_eq_false in Hth.
    rewrite closure_throttle_unfold; simpl.
    destruct (negb _); [|destruct (number_ge _ _)]; simpl; [| |reflexivity];
      match goal with |- context [f ?w1] => pose proof (Hf w1) as Hs end;
      destruct (f _) as [[[]|] w2]; simpl in *;
      rewrite ?js_set_other in * by exact Hth; exact Hs.
  - apply bool_decide_eq_false in Hcl.
    rewrite closure_clear_unfold; simpl. apply js_delete_other, Hcl.
Qed.

Lemma closure_exec_repeat name d c t w :
  monotone (clock w) →
  timeouts w !! name = Some (VNumber t) →
  is_clear_of name c = false →
  asks_at_least d name c →
  keeps_stamp name (Closure.call_func c) →
  respects_clock (Closure.call_func c) →
  ∃ (t' : Z) (again : bool),
    again = throttles name c
            && bool_decide (Closure.returned (Closure.exec c) w
                            = Closure.Returned (VBool true)) ∧
    timeouts (Closure.after (Closure.exec c) w) !! name = Some (VNumber t') ∧
    t + (if again then d else 0) ≤ t'.
Proof.
  intros Hmono Ht Hcl Hd Hks Hrc.
  destruct (throttles name c) eqn:Hth.
  - destruct c as [n f|n f i|n f k|n]; simpl in Hth; try discriminate.
    apply bool_decide_eq_true in Hth. subst n. simpl in *.
    specialize (Hd eq_refl).
    unfold Closure.after, Closure.returned.
    rewrite closure_throttle_unfold; simpl.
    rewrite (js_in_own _ _ _ Ht), (js_get_own _ _ _ Ht); simpl.
    unfold number_ge; simpl.
    destruct (bool_decide (t + i ≤ clock w (reads w))) eqn:Hgo; simpl.
    + apply bool_decide_eq_true in Hgo.
      match goal with |- context [f ?w1] =>
        pose proof (Hks w1) as Hs; destruct (Hrc w1) as [Hc Hrd] end.
      destruct (f _) as [[[]|] w2]; simpl in *.
      * exists (clock w2 (reads w2)), true. split; [reflexivity|].
        rewrite Ht in Hs. rewrite (js_set_own _ _ _ _ Hs), lookup_insert_eq.
        split; [reflexivity|].
        rewrite Hc. pose proof (Hmono (reads w) (reads w2)). lia.
      * exists t, false. split; [reflexivity|].
        rewrite Hs. split; [exact Ht|lia].
    + exists t, false. split; [reflexivity|]. split; [exact Ht|lia].
  - exists t, false. split; [reflexivity|].
    rewrite (closure_exec_stamp name c w Hth Hcl Hks). split; [exact Ht|lia].
Qed.

(** X4.  With a clock that never runs backwards, through any history that
    does not clear [name], whose [throttle] calls on [name] all ask for an
    interval of at least [d] and whose closures leave the timestamp of
    [name] as they found it, the timestamp of [name] advances by at least
    [d] for every [throttle] of [name] that returned true. *)
Theorem allowed_repeats_are_spaced name d cs : ∀ t w,
  monotone (clock w) →
  timeouts w !! name = Some (VNumber t) →
  Forall (λ c, is_clear_of name c = false ∧ asks_at_least d name c ∧
               keeps_stamp name (Closure.call_func c) ∧
               respects_clock (Closure.call_func c)) cs →
  ∃ t' : Z,
    timeouts (Closure.final cs w) !! name = Some (VNumber t') ∧
    t + d * allowed name cs (Closure.outcomes cs w) ≤ t'.
Proof.
  induction cs as [|c cs IH]; intros t w Hmono Ht Hcs.
  - exists t. split; [exact Ht|]. unfold Closure.outcomes; simpl. lia.
  - inversion Hcs as [|? ? (Hcl & Hd & Hks & Hrc) Hcs']; subst.
    destruct (closure_exec_repeat name d c t w Hmono Ht Hcl Hd Hks Hrc)
      as (t1 & b & Hb & Ht1 & Hle).
    destruct (IH t1 (Closure.after (Closure.exec c) w)) as (t' & Ht' & Hle');
      [rewrite closure_exec_clock by exact Hrc; exact Hmono
      |exact Ht1|exact Hcs'|].
    exists t'. rewrite closure_final_cons, closure_outcomes_cons.
    split; [exact Ht'|]. simpl allowed. rewrite <- Hb.
    rewrite Z.mul_add_distr_l. destruct b; lia.
Qed.

(** A closure whose body is one call of the registry with a closure that
    leaves a label. *)
Lemma calling_embed c w :
  Closure.calling (Closure.exec (embed c)) w =
  (Closure.Returned tt, after (exec c) w).
Proof.
  unfold Closure.calling, Closure.bind. rewrite labelled_exec.
  unfold Closure.lift, after. destruct (exec c w); reflexivity.
Qed.

Lemma respects_clock_calling c :
  respects_clock (Closure.calling (Closure.exec (embed c))).
Proof.
  intros w. rewrite calling_embed; simpl.
  split; [apply exec_clock|apply exec_reads].
Qed.

Lemma keeps_stamp_calling name c :
  call_name c ≠ name →
  keeps_stamp name (Closure.calling (Closure.exec (embed c))).
Proof.
  intros Hne w. rewrite calling_embed; simpl.
  apply exec_other_timeouts, Hne.
Qed.

Lemma respects_clock_labelled l : respects_clock (Closure.labelled l).
Proof. intros w. split; [reflexivity|simpl; lia]. Qed.

Lemma respects_clock_throwing : respects_clock Closure.throwing.
Proof. intros w. split; [reflexivity|simpl; lia]. Qed.

Lemma keeps_stamp_labelled name l : keeps_stamp name (Closure.labelled l).
Proof. intros w. reflexivity. Qed.

Lemma keeps_stamp_throwing name : keeps_stamp name Closure.throwing.
Proof. intros w. reflexivity. Qed.

Lemma allowed_repeats_are_spaced_witness :
  let clk := λ k : nat, 3 * Z.of_nat k in
  let w := Closure.final [Closure.Throttle "z" (Closure.labelled "f") 5]
                         (new_ZLimit clk) in
  let cs := [Closure.Throttle "z" (Closure.calling
                (Closure.exec (embed (Limit "q" "g" 1)))) 5;
             Closure.Throttle "z" Closure.throwing 5;
             Closure.Throttle "z" (Closure.calling
                (Closure.exec (embed (Throttle "u" "h" 0)))) 5;
             Closure.Throttle "z" (Closure.labelled "f") 5;
             Closure.Throttle "z" (Closure.labelled "f") 6] in
  (monotone (clock w) ∧ timeouts w !! "z" = Some (VNumber 0) ∧
   Forall (λ c, is_clear_of "z" c = false ∧ asks_at_least 5 "z" c ∧
                keeps_stamp "z" (Closure.call_func c) ∧
                respects_clock (Closure.call_func c)) cs ∧
   Closure.outcomes cs w =
     [Closure.Returned VUndefined; Closure.Thrown;
      Closure.Returned (VBool true); Closure.Returned VUndefined;
      Closure.Returned (VBool true)] ∧
   timeouts (Closure.final cs w) !! "z" = Some (VNumber 24)) ∧
  ∃ t' : Z,
    timeouts (Closure.final cs w) !! "z" = Some (VNumber t') ∧
    0 + 5 * allowed "z" cs (Closure.outcomes cs w) ≤ t'.
Proof.
  intros clk w cs.
  assert (monotone (clock w)) as Hmono.
  { intros i j Hij. change (clock w) with clk. unfold clk. lia. }
  assert (timeouts w !! "z" = Some (VNumber 0)) as Ht
    by (vm_compute; reflexivity).
  assert (Forall (λ c, is_clear_of "z" c = false ∧ asks_at_least 5 "z" c ∧
                       keeps_stamp "z" (Closure.call_func c) ∧
                       respects_clock (Closure.call_func c)) cs) as Hcs.
  { unfold cs.
    repeat (apply List.Forall_cons;
            [split; [reflexivity|split; [simpl; intros; lia|split]]|]);
      try apply List.Forall_nil; cbn [Closure.call_func];
      auto using respects_clock_calling, respects_clock_labelled,
                 respects_clock_throwing, keeps_stamp_labelled,
                 keeps_stamp_throwing;
      apply keeps_stamp_calling; discriminate. }
  split; [repeat split; try assumption; vm_compute; reflexivity|].
  exact (allowed_repeats_are_spaced "z" 5 cs 0 w Hmono Ht Hcs).
Defined.

(** ** [clear] after a call *)

Lemma closure_limit_records name f n w :
  inherited name = false →
  keeps_present name f →
  is_Some (remainingCalls (Closure.after (Closure.limit name f n) w) !! name).
Proof.
  intros Hi Hf. unfold Closure.after. rewrite closure_limit_unfold; simpl.
  set (r := if js_in name (remainingCalls w) then remainingCalls w else _).
  assert (is_Some (r !! name)) as Hr.
  { unfold r. destruct (js_in name (remainingCalls w)) eqn:Hin.
    - exact (js_in_own_name _ _ Hi Hin).
    - apply js_set_is_Some. left. exact Hi. }
  destruct (_ && _); simpl; [|exact Hr].
  match goal with |- context [f ?w1] => destruct (Hf w1) as [_ Hp] end.
  specialize (Hp Hr).
  destruct (f _) as [[[]|] w2]; simpl in *; [|exact Hp].
  apply js_set_is_Some. right. exact Hp.
Qed.

Lemma closure_throttle_records name f interval w :
  inherited name = false →
  keeps_present name f →
  is_Some (timeouts (Closure.after (Closure.throttle name f interval) w)
             !! name).
Proof.
  intros Hi Hf. unfold Closure.after. rewrite closure_throttle_unfold; simpl.
  destruct (js_in name (timeouts w)) eqn:Hin; simpl.
  - pose proof (js_in_own_name _ _ Hi Hin) as Ht.
    destruct (number_ge _ _); simpl; [|exact Ht].
    match goal with |- context [f ?w1] => destruct (Hf w1) as [Hp _] end.
    specialize (Hp Ht).
    destruct (f _) as [[[]|] w2]; simpl in *; [|exact Hp].
    apply js_set_is_Some. right. exact Hp.
  - match goal with |- context [f ?w1] => destruct (Hf w1) as [Hp _] end.
    assert (is_Some (js_set (timeouts w) name
                       (VNumber (clock w (reads w))) !! name)) as Hs
      by (apply js_set_is_Some; left; exact Hi).
    specialize (Hp Hs).
    destruct (f _) as [[[]|] w2]; simpl in *; exact Hp.
Qed.

(** X7.  On a name that [Object.prototype] does not define, any [once],
    [limit] or [throttle] call whose closure removes no entry of that name
    leaves something for [clear] to reset, whether the closure ran, threw
    or was not run at all: [clear] of that name right after it returns
    true. *)
Theorem clear_after_any_call_returns_true c w :
  inherited (Closure.call_name c) = false →
  is_clear_of (Closure.call_name c) c = false →
  keeps_present (Closure.call_name c) (Closure.call_func c) →
  Closure.returned (Closure.clear (Closure.call_name c))
                   (Closure.after (Closure.exec c) w)
  = Closure.Returned (VBool true).
Proof.
  intros Hi Hc Hf. unfold Closure.returned.
  rewrite closure_clear_unfold; simpl. f_equal. f_equal.
  destruct c as [n f|n f i|n f m|n]; simpl in *.
  - destruct (closure_limit_records n f 1 w Hi Hf) as [x Hx].
    unfold Closure.once. rewrite (js_in_own _ _ _ Hx). apply orb_true_r.
  - destruct (closure_throttle_records n f i w Hi Hf) as [x Hx].
    rewrite (js_in_own _ _ _ Hx). reflexivity.
  - destruct (closure_limit_records n f m w Hi Hf) as [x Hx].
    rewrite (js_in_own _ _ _ Hx). apply orb_true_r.
  - rewrite bool_decide_eq_true_2 in Hc by reflexivity. discriminate.
Qed.

Lemma keeps_present_throwing name : keeps_present name Closure.throwing.
Proof. intros w. split; auto. Qed.

Lemma clear_after_any_call_returns_true_witness :
  let c := Closure.Throttle "x" Closure.throwing 5 in
  let w := new_ZLimit (steady 0) in
  (inherited (Closure.call_name c) = false ∧
   is_clear_of (Closure.call_name c) c = false ∧
   keeps_present (Closure.call_name c) (Closure.call_func c) ∧
   Closure.returned (Closure.exec c) w = Closure.Thrown) ∧
  Closure.returned (Closure.clear (Closure.call_name c))
                   (Closure.after (Closure.exec c) w)
  = Closure.Returned (VBool true).
Proof.
  intros c w.
  assert (inherited (Closure.call_name c) = false) as Hi by reflexivity.
  assert (is_clear_of (Closure.call_name c) c = false) as Hc by reflexivity.
  assert (keeps_present (Closure.call_name c) (Closure.call_func c)) as Hf
    by apply keeps_present_throwing.
  split; [split; [exact Hi|split; [exact Hc|split; [exact Hf|reflexivity]]]|].
  exact (clear_after_any_call_returns_true c w Hi Hc Hf).
Defined.

(** ** Closures that return and leave the registry alone *)

Lemma sim_limit name f l n w1 w2 :
  inert f → same_registry w1 w2 →
  Closure.returned (Closure.limit name f n) w1
    = Closure.Returned (returned (limit name l n) w2) ∧
  same_registry (Closure.after (Closure.limit name f n) w1)
                (after (limit name l n) w2).
Proof.
  intros Hf (Ht & Hr & Hc & Hrd).
  unfold Closure.returned, Closure.after, returned, after.
  rewrite closure_limit_unfold, limit_unfold; simpl. rewrite Hr.
  set (r := if js_in name (remainingCalls w2) then remainingCalls w2 else _).
  destruct (_ && _); simpl.
  - destruct (Hf (World (timeouts w1) r (clock w1) (reads w1) (calls w1)))
      as (w' & -> & Ht' & Hr' & Hc' & Hrd'); simpl in *.
    rewrite Ht', Hr', Hc', Hrd'. repeat split; assumption.
  - repeat split; assumption.
Qed.

Lemma sim_throttle name f l interval w1 w2 :
  inert f → same_registry w1 w2 →
  Closure.returned (Closure.throttle name f interval) w1
    = Closure.Returned (returned (throttle name l interval) w2) ∧
  same_registry (Closure.after (Closure.throttle name f interval) w1)
                (after (throttle name l interval) w2).
Proof.
  intros Hf (Ht & Hr & Hc & Hrd).
  unfold Closure.returned, Closure.after, returned, after.
  rewrite closure_throttle_unfold, throttle_unfold; simpl.
  rewrite Ht, Hc, Hrd.
  destruct (negb _); [|destruct (number_ge _ _)]; simpl.
  - match goal with |- context [f ?w0] =>
      destruct (Hf w0) as (w' & -> & Ht' & Hr' & Hc' & Hrd') end; simpl in *.
    repeat split; simpl; congruence.
  - match goal with |- context [f ?w0] =>
      destruct (Hf w0) as (w' & -> & Ht' & Hr' & Hc' & Hrd') end; simpl in *.
    rewrite Ht', Hc', Hrd'. repeat split; simpl; congruence.
  - repeat split; assumption.
Qed.

Lemma sim_exec c w1 w2 :
  inert (Closure.call_func c) → same_registry w1 w2 →
  Closure.returned (Closure.exec c) w1
    = Closure.Returned (returned (exec (erase c)) w2) ∧
  same_registry (Closure.after (Closure.exec c) w1)
                (after (exec (erase c)) w2).
Proof.
  destruct c as [n f|n f i|n f m|n]; simpl; intros Hf Hw.
  - apply sim_limit; assumption.
  - apply sim_throttle; assumption.
  - apply sim_limit; assumption.
  - destruct Hw as (Ht & Hr & Hc & Hrd).
    unfold Closure.returned, Closure.after, returned, after.
    rewrite closure_clear_unfold, clear_unfold; simpl.
    rewrite Ht, Hr. repeat split; assumption.
Qed.

Lemma sim_run cs : ∀ w1 w2,
  Forall (λ c, inert (Closure.call_func c)) cs → same_registry w1 w2 →
  Closure.outcomes cs w1
    = map Closure.Returned (returned (run (map erase cs)) w2) ∧
  same_registry (Closure.final cs w1) (after (run (map erase cs)) w2).
Proof.
  induction cs as [|c cs IH]; intros w1 w2 Hcs Hw; [split; [reflexivity|exact Hw]|].
  inversion Hcs as [|? ? Hc Hcs']; subst.
  destruct (sim_exec c w1 w2 Hc Hw) as [Hv Hw'].
  destruct (IH _ _ Hcs' Hw') as [IHv IHw].
  rewrite closure_outcomes_cons, closure_final_cons.
  change (map erase (c :: cs)) with (erase c :: map erase cs).
  rewrite run_returned_cons, run_after_cons, Hv, IHv.
  split; [reflexivity|exact IHw].
Qed.

Lemma same_registry_refl w : same_registry w w.
Proof. repeat split. Qed.

Lemma inert_labelled l : inert (Closure.labelled l).
Proof. intros w. eexists. repeat split. Qed.

Lemma inert_no_closure : inert (Closure.ret tt).
Proof. intros w. eexists. repeat split. Qed.

(** ** [once] and [limit] draw on one quota *)

Lemma closure_limit_settled name f n k w :
  settles f →
  remainingCalls w !! name = Some (VNumber k) →
  k ≤ two53 →
  Closure.returned (Closure.limit name f n) w
    = Closure.Returned (VBool (bool_decide (0 < k))) ∧
  remainingCalls (Closure.after (Closure.limit name f n) w) !! name
    = Some (VNumber (if bool_decide (0 < k) then k - 1 else k)).
Proof.
  intros Hf Hr Hsafe. unfold Closure.returned, Closure.after.
  rewrite closure_limit_unfold; simpl.
  rewrite (js_in_own _ _ _ Hr); simpl.
  rewrite (js_in_own _ _ _ Hr), (js_get_own _ _ _ Hr); simpl.
  unfold gt_number; simpl.
  destruct (bool_decide (0 < k)) eqn:Hpos; simpl; [|auto].
  apply bool_decide_eq_true in Hpos.
  match goal with |- context [f ?w1] => destruct (Hf w1) as [Hret Hq] end.
  destruct (f _) as [[[]|] w2]; simpl in *; [|discriminate].
  rewrite Hq, (js_get_own _ _ _ Hr), (js_set_own _ _ _ _ Hr), lookup_insert_eq.
  unfold js_pred; simpl. rewrite (round53_pred k Hpos Hsafe). auto.
Qed.

Lemma closure_limit_seeds name f n w :
  inherited name = false →
  remainingCalls w !! name = None →
  ∃ w1, remainingCalls w1 !! name = Some (VNumber n) ∧
        Closure.limit name f n w = Closure.limit name f n w1.
Proof.
  intros Hi Hr.
  exists (World (timeouts w) (<[name := VNumber n]> (remainingCalls w))
                (clock w) (reads w) (calls w)).
  split; [apply lookup_insert_eq|].
  rewrite !closure_limit_unfold; simpl.
  rewrite (js_in_absent _ _ Hr), Hi, (js_set_new _ _ _ Hi).
  rewrite (js_in_own _ name (VNumber n)) by apply lookup_insert_eq.
  simpl. rewrite (js_in_own _ name (VNumber n)) by apply lookup_insert_eq.
  reflexivity.
Qed.

Lemma closure_draws_running name cs : ∀ k w,
  Forall (λ c, draws name c = true ∧ settles (Closure.call_func c)) cs →
  0 ≤ k → k ≤ two53 →
  remainingCalls w !! name = Some (VNumber k) →
  Closure.outcomes cs w =
    map (λ i : nat, Closure.Returned (VBool (bool_decide (Z.of_nat i < k))))
        (seq 0 (length cs)).
Proof.
  induction cs as [|c cs IH]; intros k w Hcs Hk Hsafe Hr; [reflexivity|].
  inversion Hcs as [|? ? [Hd Hf] Hcs']; subst.
  rewrite closure_outcomes_cons.
  assert (∃ f n, Closure.exec c = Closure.limit name f n ∧ settles f)
    as (f & n & He & Hs).
  { destruct c as [m f|m f i|m f j|m]; simpl in *; try discriminate;
      apply bool_decide_eq_true in Hd; subst m; eauto. }
  rewrite He.
  destruct (closure_limit_settled name f n k w Hs Hr Hsafe) as [-> Hr'].
  set (k' := if bool_decide (0 < k) then k - 1 else k) in *.
  assert (0 ≤ k' ∧ k' ≤ two53 ∧
          (0 < k → k' = k - 1) ∧ (¬ 0 < k → k' = k)) as (H1 & H2 & H3 & H4).
  { unfold k'. destruct (bool_decide (0 < k)) eqn:Hpos;
      [apply bool_decide_eq_true in Hpos|apply bool_decide_eq_false in Hpos];
      repeat split; lia. }
  rewrite (IH k' _ Hcs' H1 H2 Hr').
  simpl. apply (f_equal2 cons).
  - do 2 apply f_equal. apply bool_decide_ext. lia.
  - rewrite <- seq_shift, map_map. apply map_ext; intros i.
    do 2 apply f_equal. apply bool_decide_ext.
    destruct (Z_lt_dec 0 k) as [Hp|Hn]; [rewrite (H3 Hp)|rewrite (H4 Hn)]; lia.
Qed.

(** X2.  [once] and [limit] share the quota of a name.  On a name that
    [Object.prototype] does not define and that holds no quota, a run of
    [once] and [limit] calls in any mix, with closures that return and
    leave the quota mapping as they found it, returns true for its first
    [n] calls and false afterwards, where [n], from 0 to 2^53, is what the
    first call seeds: 1 for [once], its maxCalls for [limit]. *)
Theorem once_and_limit_draw_on_one_quota name c cs w :
  inherited name = false →
  remainingCalls w !! name = None →
  Forall (λ c, draws name c = true ∧ settles (Closure.call_func c)) (c :: cs) →
  0 ≤ seeds c → seeds c ≤ two53 →
  Closure.outcomes (c :: cs) w =
    map (λ i : nat, Closure.Returned
                      (VBool (bool_decide (Z.of_nat i < seeds c))))
        (seq 0 (S (length cs))).
Proof.
  intros Hi Hr Hcs H0 Hsafe.
  inversion Hcs as [|? ? [Hd Hf] Hcs']; subst.
  assert (∃ f, Closure.exec c = Closure.limit name f (seeds c))
    as (f & He).
  { destruct c as [m f|m f i|m f j|m]; simpl in *; try discriminate;
      apply bool_decide_eq_true in Hd; subst m; eauto. }
  destruct (closure_limit_seeds name f (seeds c) w Hi Hr) as (w1 & Hr1 & Hw1).
  assert (Closure.outcomes (c :: cs) w = Closure.outcomes (c :: cs) w1) as ->.
  { rewrite !closure_outcomes_cons.
    unfold Closure.returned, Closure.after. rewrite He, Hw1. reflexivity. }
  exact (closure_draws_running name (c :: cs) (seeds c) w1 Hcs H0 Hsafe Hr1).
Qed.

Lemma settles_labelled l : settles (Closure.labelled l).
Proof. intros w. split; reflexivity. Qed.

Lemma settles_calling_throttle name l interval :
  settles (Closure.calling (Closure.exec (embed (Throttle name l interval)))).
Proof.
  intros w. rewrite calling_embed; simpl. split; [reflexivity|].
  apply throttle_remainingCalls.
Qed.

Lemma once_and_limit_draw_on_one_quota_witness :
  let w := new_ZLimit (steady 0) in
  let c := Closure.Limit "k" (Closure.labelled "a") 2 in
  let cs := [Closure.Once "k" (Closure.calling
                (Closure.exec (embed (Throttle "k" "b" 0))));
             Closure.Limit "k" (Closure.labelled "c") 7;
             Closure.Once "k" (Closure.labelled "d")] in
  (inherited "k" = false ∧ remainingCalls w !! "k" = None ∧
   Forall (λ c, draws "k" c = true ∧ settles (Closure.call_func c)) (c :: cs) ∧
   0 ≤ seeds c ∧ seeds c ≤ two53) ∧
  Closure.outcomes (c :: cs) w =
    map (λ i : nat, Closure.Returned
                      (VBool (bool_decide (Z.of_nat i < seeds c))))
        (seq 0 (S (length cs))).
Proof.
  intros w c cs.
  assert (inherited "k" = false) as Hi by reflexivity.
  assert (remainingCalls w !! "k" = None) as Hr by reflexivity.
  assert (Forall (λ c, draws "k" c = true ∧ settles (Closure.call_func c))
                 (c :: cs)) as Hcs.
  { unfold c, cs.
    repeat (apply List.Forall_cons; [split; [reflexivity|]|]);
      try apply List.Forall_nil; cbn [Closure.call_func];
      auto using settles_labelled, settles_calling_throttle. }
  assert (0 ≤ seeds c) as H0 by (simpl; lia).
  assert (seeds c ≤ two53) as Hs by (unfold two53; simpl; lia).
  split; [auto 10|].
  exact (once_and_limit_draw_on_one_quota "k" c cs w Hi Hr Hcs H0 Hs).
Defined.

(** ** Throttling and quotas do not interfere *)

Lemma settles_quiet f : settles f → quota_quiet f.
Proof. intros H w. apply H. Qed.

Lemma closure_limit_quota_map name f n w1 w2 :
  settles f →
  remainingCalls w1 = remainingCalls w2 →
  Closure.returned (Closure.limit name f n) w1
    = Closure.returned (Closure.limit name f n) w2 ∧
  remainingCalls (Closure.after (Closure.limit name f n) w1) =
  remainingCalls (Closure.after (Closure.limit name f n) w2).
Proof.
  intros Hf Hr. unfold Closure.returned, Closure.after.
  rewrite !closure_limit_unfold; simpl. rewrite Hr.
  set (r := if js_in name (remainingCalls w2) then remainingCalls w2 else _).
  destruct (_ && _); simpl; [|auto].
  destruct (Hf (World (timeouts w1) r (clock w1) (reads w1) (calls w1)))
    as [Hret1 Hq1].
  destruct (Hf (World (timeouts w2) r (clock w2) (reads w2) (calls w2)))
    as [Hret2 Hq2].
  destruct (f (World (timeouts w1) r _ _ _)) as [[[]|] u1]; [|discriminate].
  destruct (f (World (timeouts w2) r _ _ _)) as [[[]|] u2]; [|discriminate].
  simpl in *. rewrite Hq1, Hq2. auto.
Qed.

Lemma closure_run_without_throttles cs : ∀ w1 w2,
  Forall (λ c, settles (Closure.call_func c)) cs →
  remainingCalls w1 = remainingCalls w2 →
  remainingCalls (Closure.final cs w1) =
    remainingCalls (Closure.final (drop_throttles cs) w2) ∧
  draw_outcomes cs (Closure.outcomes cs w1) =
    draw_outcomes (drop_throttles cs)
                  (Closure.outcomes (drop_throttles cs) w2).
Proof.
  induction cs as [|c cs IH]; intros w1 w2 Hcs Hr;
    [split; [exact Hr|reflexivity]|].
  inversion Hcs as [|? ? Hf Hcs']; subst.
  unfold drop_throttles in *.
  destruct c as [n f|n f i|n f m|n]; simpl in Hf.
  - rewrite filter_cons_True by reflexivity.
    rewrite !closure_final_cons, !closure_outcomes_cons. simpl.
    destruct (closure_limit_quota_map n f 1 w1 w2 Hf Hr) as [Hv Hr'].
    destruct (IH _ _ Hcs' Hr') as [IHr IHv].
    unfold Closure.once. rewrite Hv. split; [exact IHr|f_equal; exact IHv].
  - rewrite filter_cons_False by discriminate.
    rewrite closure_final_cons, closure_outcomes_cons. simpl.
    apply IH; [exact Hcs'|].
    rewrite closure_throttle_quota by (apply settles_quiet, Hf). exact Hr.
  - rewrite filter_cons_True by reflexivity.
    rewrite !closure_final_cons, !closure_outcomes_cons. simpl.
    destruct (closure_limit_quota_map n f m w1 w2 Hf Hr) as [Hv Hr'].
    destruct (IH _ _ Hcs' Hr') as [IHr IHv].
    rewrite Hv. split; [exact IHr|f_equal; exact IHv].
  - rewrite filter_cons_True by reflexivity.
    rewrite !closure_final_cons, !closure_outcomes_cons. simpl.
    apply IH; [exact Hcs'|].
    unfold Closure.after. rewrite !closure_clear_unfold; simpl. rewrite Hr.
    reflexivity.
Qed.

(** X12.  [throttle] calls have no effect on quotas: in a history whose
    closures return and leave the quota mapping as they found it, taking
    every [throttle] out changes neither the quota mapping the history ends
    with nor the value any of its [limit] and [once] calls returns. *)
Theorem throttles_leave_quotas_alone cs w :
  Forall (λ c, settles (Closure.call_func c)) cs →
  remainingCalls (Closure.final cs w) =
    remainingCalls (Closure.final (drop_throttles cs) w) ∧
  draw_outcomes cs (Closure.outcomes cs w) =
    draw_outcomes (drop_throttles cs)
                  (Closure.outcomes (drop_throttles cs) w).
Proof. intros Hcs. apply closure_run_without_throttles; [exact Hcs|reflexivity]. Qed.

Lemma throttles_leave_quotas_alone_witness :
  let w := new_ZLimit (λ k : nat, 10 * Z.of_nat k) in
  let cs := [Closure.Throttle "z" (Closure.labelled "f") 5;
             Closure.Limit "x" (Closure.calling
                (Closure.exec (embed (Throttle "z" "g" 5)))) 1;
             Closure.Throttle "x" (Closure.labelled "f") 0;
             Closure.Once "x" (Closure.labelled "h");
             Closure.Clear "z";
             Closure.Once "y" (Closure.labelled "h")] in
  (Forall (λ c, settles (Closure.call_func c)) cs ∧
   draw_outcomes cs (Closure.outcomes cs w) =
     [Closure.Returned (VBool true); Closure.Returned (VBool false);
      Closure.Returned (VBool true)]) ∧
  remainingCalls (Closure.final cs w) =
    remainingCalls (Closure.final (drop_throttles cs) w) ∧
  draw_outcomes cs (Closure.outcomes cs w) =
    draw_outcomes (drop_throttles cs)
                  (Closure.outcomes (drop_throttles cs) w).
Proof.
  intros w cs.
  assert (settles (Closure.ret tt)) as Hnone by (intros w0; split; reflexivity).
  assert (Forall (λ c, settles (Closure.call_func c)) cs) as Hcs.
  { unfold cs. repeat (apply List.Forall_cons; [|]);
      try apply List.Forall_nil; cbn [Closure.call_func];
      auto using settles_labelled, settles_calling_throttle. }
  split; [split; [exact Hcs|vm_compute; reflexivity]|].
  exact (throttles_leave_quotas_alone cs w Hcs).
Defined.

(** ** Calls on two names *)

(** X13.  Calls on two different names commute, unless both are
    [throttle], when their closures return and leave the registry and the
    clock alone: in either order each call returns the same value and the
    two mappings end up the same. *)
Theorem calls_on_two_names_commute c1 c2 w :
  Closure.call_name c1 ≠ Closure.call_name c2 →
  throttling c1 && throttling c2 = false →
  inert (Closure.call_func c1) →
  inert (Closure.call_func c2) →
  Closure.returned (Closure.exec c1) (Closure.after (Closure.exec c2) w)
    = Closure.returned (Closure.exec c1) w ∧
  Closure.returned (Closure.exec c2) (Closure.after (Closure.exec c1) w)
    = Closure.returned (Closure.exec c2) w ∧
  timeouts (Closure.after (Closure.exec c2) (Closure.after (Closure.exec c1) w))
    = timeouts (Closure.after (Closure.exec c1)
                              (Closure.after (Closure.exec c2) w)) ∧
  remainingCalls
      (Closure.after (Closure.exec c2) (Closure.after (Closure.exec c1) w))
    = remainingCalls (Closure.after (Closure.exec c1)
                                    (Closure.after (Closure.exec c2) w)).
Proof.
  intros Hne Hth H1 H2.
  assert (call_name (erase c1) ≠ call_name (erase c2)) as Hne'
    by (destruct c1, c2; exact Hne).
  assert (is_throttle (erase c1) && is_throttle (erase c2) = false) as Hth'
    by (destruct c1, c2; exact Hth).
  destruct (calls_on_different_names_commute (erase c1) (erase c2) w Hne' Hth')
    as (Pv1 & Pv2 & Pt & Pr).
  pose proof (same_registry_refl w) as Hw.
  destruct (sim_exec c1 w w H1 Hw) as [V1 W1].
  destruct (sim_exec c2 w w H2 Hw) as [V2 W2].
  destruct (sim_exec c1 _ _ H1 W2) as [V12 W12].
  destruct (sim_exec c2 _ _ H2 W1) as [V21 W21].
  destruct W12 as (T12 & R12 & _). destruct W21 as (T21 & R21 & _).
  rewrite V1, V2, V12, V21, T12, T21, R12, R21, Pv1, Pv2, Pt, Pr.
  repeat split.
Qed.

Lemma calls_on_two_names_commute_witness :
  let c1 := Closure.Throttle "a" (Closure.labelled "f") 5 in
  let c2 := Closure.Limit "b" (Closure.ret tt) 1 in
  let w := Closure.final [Closure.Throttle "a" (Closure.labelled "f") 5;
                          Closure.Limit "b" (Closure.labelled "g") 2]
                         (new_ZLimit (ticking [0; 7; 8])) in
  (Closure.call_name c1 ≠ Closure.call_name c2 ∧
   throttling c1 && throttling c2 = false ∧
   inert (Closure.call_func c1) ∧ inert (Closure.call_func c2) ∧
   Closure.returned (Closure.exec c1) w = Closure.Returned (VBool true) ∧
   Closure.returned (Closure.exec c2) w = Closure.Returned (VBool true)) ∧
  Closure.returned (Closure.exec c1) (Closure.after (Closure.exec c2) w)
    = Closure.returned (Closure.exec c1) w ∧
  Closure.returned (Closure.exec c2) (Closure.after (Closure.exec c1) w)
    = Closure.returned (Closure.exec c2) w ∧
  timeouts (Closure.after (Closure.exec c2) (Closure.after (Closure.exec c1) w))
    = timeouts (Closure.after (Closure.exec c1)
                              (Closure.after (Closure.exec c2) w)) ∧
  remainingCalls
      (Closure.after (Closure.exec c2) (Closure.after (Closure.exec c1) w))
    = remainingCalls (Closure.after (Closure.exec c1)
                                    (Closure.after (Closure.exec c2) w)).
Proof.
  intros c1 c2 w.
  assert (Closure.call_name c1 ≠ Closure.call_name c2) as Hne by discriminate.
  assert (throttling c1 && throttling c2 = false) as Hth by reflexivity.
  assert (inert (Closure.call_func c1)) as H1 by apply inert_labelled.
  assert (inert (Closure.call_func c2)) as H2 by apply inert_no_closure.
  split; [split; [exact Hne|split; [exact Hth|split; [exact H1|split;
            [exact H2|split; vm_compute; reflexivity]]]]|].
  exact (calls_on_two_names_commute c1 c2 w Hne Hth H1 H2).
Defined.

(** ** [clear] re-arms a name *)

(** X16.  On a name that [Object.prototype] does not define, [clear]
    re-arms both limiters whatever was recorded.  With a closure that
    returns and leaves the quota mapping and the timestamp of the name as
    it found them: the next [limit] with a maxCalls from 1 to 2^53 returns
    true and leaves maxCalls - 1 as the quota, and the next [throttle]
    returns false, as on a first call, and holds the time it read. *)
Theorem clear_rearms_name name f n interval w :
  inherited name = false →
  0 < n → n ≤ two53 →
  settles f → keeps_stamp name f →
  let w' := Closure.after (Closure.clear name) w in
  (Closure.returned (Closure.limit name f n) w'
     = Closure.Returned (VBool true) ∧
   remainingCalls (Closure.after (Closure.limit name f n) w') !! name
     = Some (VNumber (n - 1))) ∧
  (Closure.returned (Closure.throttle name f interval) w'
     = Closure.Returned (VBool false) ∧
   timeouts (Closure.after (Closure.throttle name f interval) w') !! name
     = Some (VNumber (clock w (reads w)))).
Proof.
  intros Hi Hn Hsafe Hf Hk w'.
  assert (timeouts w' !! name = None ∧ remainingCalls w' !! name = None ∧
          clock w' = clock w ∧ reads w' = reads w) as (Ht & Hr & Hc & Hrd).
  { unfold w', Closure.after. rewrite closure_clear_unfold; simpl.
    rewrite !js_delete_same. auto. }
  split.
  - destruct (closure_limit_seeds name f n w' Hi Hr) as (w1 & Hr1 & Hw1).
    unfold Closure.returned, Closure.after. rewrite Hw1.
    destruct (closure_limit_settled name f n n w1 Hf Hr1 Hsafe) as [Hv Hq].
    unfold Closure.returned, Closure.after in Hv, Hq.
    rewrite bool_decide_eq_true_2 in Hv, Hq by exact Hn. auto.
  - unfold Closure.returned, Closure.after.
    rewrite closure_throttle_unfold; simpl.
    rewrite (js_in_absent _ _ Ht), Hi; simpl.
    match goal with |- context [f ?w1] =>
      destruct (Hf w1) as [Hret _]; pose proof (Hk w1) as Hs end.
    destruct (f _) as [[[]|] w2]; simpl in *; [|discriminate].
    split; [reflexivity|].
    rewrite Hs, (js_set_new _ _ _ Hi), lookup_insert_eq, Hc, Hrd. reflexivity.
Qed.

Lemma clear_rearms_name_witness :
  let w := Closure.final [Closure.Once "x" (Closure.labelled "f");
                          Closure.Once "x" (Closure.labelled "f");
                          Closure.Throttle "x" (Closure.labelled "f") 1000]
                         (new_ZLimit (steady 3)) in
  let f := Closure.calling (Closure.exec (embed (Throttle "other" "g" 0))) in
  (inherited "x" = false ∧ 0 < 2 ∧ 2 ≤ two53 ∧
   settles f ∧ keeps_stamp "x" f ∧
   Closure.returned (Closure.limit "x" f 2) w = Closure.Returned (VBool false) ∧
   Closure.returned (Closure.throttle "x" f 1000) w
     = Closure.Returned VUndefined) ∧
  let w' := Closure.after (Closure.clear "x") w in
  (Closure.returned (Closure.limit "x" f 2) w'
     = Closure.Returned (VBool true) ∧
   remainingCalls (Closure.after (Closure.limit "x" f 2) w') !! "x"
     = Some (VNumber (2 - 1))) ∧
  (Closure.returned (Closure.throttle "x" f 1000) w'
     = Closure.Returned (VBool false) ∧
   timeouts (Closure.after (Closure.throttle "x" f 1000) w') !! "x"
     = Some (VNumber (clock w (reads w)))).
Proof.
  intros w f.
  assert (inherited "x" = false) as Hi by reflexivity.
  assert (0 < 2) as Hn by lia.
  assert (2 ≤ two53) as Hs by (unfold two53; lia).
  assert (settles f) as Hf by apply settles_calling_throttle.
  assert (keeps_stamp "x" f) as Hk
    by (apply keeps_stamp_calling; discriminate).
  split; [split; [exact Hi|split; [exact Hn|split; [exact Hs|split;
            [exact Hf|split; [exact Hk|split; vm_compute; reflexivity]]]]]|].
  exact (clear_rearms_name "x" f 2 1000 w Hi Hn Hs Hf Hk).
Defined.
